(** * Credit-approval backend: the eligibility / approval decision engine

    A shallow embedding of
    - [loans/models.py]          ([Loan], [Loan.calculate_emi]),
    - [loans/views.py]           ([calculate_credit_score],
                                  [get_approval_decision], [check_eligibility]),
    - [loans/serializers.py]     ([LoanEligibilitySerializer]),
    - [customers/models.py], [customers/serializers.py]
                                 ([Customer], [CustomerRegistrationSerializer.create]).

    Numbers are kept as the Python code has them: model integers are [Z],
    [Decimal] columns with two places are [Z] counts of hundredths, and Python
    [float]s are IEEE-754 binary64 values ([PrimFloat.float]).  The engine is
    written once over an interface [PyFloat] of the float operations it uses;
    [binary64] is the arithmetic the program runs on. *)

From Stdlib Require Import ZArith List Bool String Lia.
From Stdlib Require Import Floats Zpower.
Import ListNotations.

Local Open Scope Z_scope.

(** ** Exceptions *)

Inductive exn : Type :=
| ZeroDivisionError
| OverflowError
| ValueError.

Inductive result (A : Type) : Type :=
| Ok (a : A)
| Raise (e : exn).

Arguments Ok {A} a.
Arguments Raise {A} e.

Definition bind {A B : Type} (r : result A) (k : A -> result B) : result B :=
  match r with
  | Ok a => k a
  | Raise e => Raise e
  end.

Notation "x <- c ;; k" := (bind c (fun x => k))
  (at level 61, c at next level, right associativity).

(** ** Rounding to the nearest, ties to even

    Python rounds this way both in [round(n, -5)] on an int and in
    [round(x, 2)] on a float. *)

Definition round_half_even (num den : Z) : Z :=
  let q := num / den in
  let r := num mod den in
  match 2 * r ?= den with
  | Lt => q
  | Gt => q + 1
  | Eq => if Z.even q then q else q + 1
  end.

(** ** The float operations the engine uses *)

Class PyFloat (F : Type) : Type := {
  (** [a / b] for two Python ints ([b <> 0]); with [b = 1] it is [float(a)]
      of a literal or of an integer column, with [b = 100] the float of a
      two-place [Decimal], and a literal such as [0.75] is [of_ratio 75 100]. *)
  of_ratio : Z -> Z -> F;
  (** an int of any size as the float operand of [/]: [OverflowError] when
      it is too large for a float *)
  of_long : Z -> result F;
  fadd : F -> F -> F;
  fsub : F -> F -> F;
  fmul : F -> F -> F;
  (** the quotient for a non-zero divisor; Python tests the divisor first *)
  fdiv : F -> F -> F;
  (** [x ** n] for an int [n] *)
  fpow : F -> Z -> result F;
  (** [round(x, 2)] *)
  round2 : F -> F;
  (** [int(x)] *)
  trunc : F -> result Z;
  feqb : F -> F -> bool;
  fltb : F -> F -> bool;
  fleb : F -> F -> bool
}.

Definition of_int {F} `{PyFloat F} (n : Z) : F := of_ratio n 1.
Definition of_decimal {F} `{PyFloat F} (hundredths : Z) : F := of_ratio hundredths 100.

(** ** binary64, the arithmetic of CPython's [float] *)

Module B64.

(** An integer as an exact, unnormalised [spec_float]. *)
Definition SF_of_Z (n : Z) : spec_float :=
  match n with
  | Z0 => S754_zero false
  | Zpos p => S754_finite false p 0
  | Zneg p => S754_finite true p 0
  end.

(** The double nearest to [a / b] (ties to even): one division, rounded once. *)
Definition SF_of_ratio (a b : Z) : spec_float :=
  SFdiv prec emax (SF_of_Z a) (SF_of_Z b).

Definition of_ratio (a b : Z) : float := SF2Prim (SF_of_ratio a b).

(** [PyLong_AsDouble]: the double nearest to [n] (ties to even), and
    [OverflowError] ("int too large to convert to float") when that is beyond
    the largest double. *)
Definition SF_of_long (n : Z) : result spec_float :=
  match binary_normalize prec emax n 0 false with
  | S754_infinity _ => Raise OverflowError
  | r => Ok r
  end.

Definition of_long (n : Z) : result float :=
  r <- SF_of_long n ;; Ok (SF2Prim r).

(** The integer a finite [spec_float] truncates to. *)
Definition SF_trunc (s : bool) (m : positive) (e : Z) : Z :=
  let a := match e with
           | Zneg d => Zpos m / Z.pow_pos 2 d
           | _ => Zpos m * 2 ^ e
           end in
  if s then - a else a.

(** [float.__pow__] with an integral exponent, the exponent already a
    double.  The special cases are CPython's ([float_pow]); for the remaining
    finite bases the exact power is rounded once.  CPython takes the value
    from the C library's [pow], which may differ from the correctly rounded
    one in the last place: the theorems on all inputs take the power as it is
    returned, whatever its last place, and only computed examples depend on
    it. *)
Definition SF_pow (x : spec_float) (n : Z) : result spec_float :=
  match n with
  | Z0 => Ok (S754_finite false 4503599627370496 (-52))
  | Zpos k =>
      match x with
      | S754_nan => Ok S754_nan
      | S754_zero s => Ok (S754_zero (s && Z.odd (Zpos k)))
      | S754_infinity s => Ok (S754_infinity (s && Z.odd (Zpos k)))
      | S754_finite s m e =>
          match binary_round prec emax (s && Z.odd (Zpos k)) (Pos.pow m k) (e * Zpos k) with
          | S754_infinity _ => Raise OverflowError
          | r => Ok r
          end
      end
  | Zneg k =>
      match x with
      | S754_nan => Ok S754_nan
      | S754_zero _ => Raise ZeroDivisionError
      | S754_infinity s => Ok (S754_zero (s && Z.odd (Zpos k)))
      | S754_finite s m e =>
          match SFdiv prec emax (S754_finite false 1 0)
                  (S754_finite (s && Z.odd (Zpos k)) (Pos.pow m k) (e * Zpos k)) with
          | S754_infinity _ => Raise OverflowError
          | r => Ok r
          end
      end
  end.

(** [x ** n]: the int is converted to a double first, and that double is the
    exponent. *)
Definition pow (x : float) (n : Z) : result float :=
  w <- SF_of_long n ;;
  let iw := match w with
            | S754_finite s m e => SF_trunc s m e
            | _ => 0
            end in
  r <- SF_pow (Prim2SF x) iw ;; Ok (SF2Prim r).

(** [float.__round__(x, 2)]: the exact binary value is rounded to the nearest
    hundredth, ties to even, and the decimal result is read back as a double;
    infinities and NaN are returned as they are. *)
Definition SF_round2 (x : spec_float) : spec_float :=
  match x with
  | S754_finite s m e =>
      let k := match e with
               | Zneg d => round_half_even (100 * Zpos m) (Z.pow_pos 2 d)
               | _ => 100 * Zpos m * 2 ^ e
               end in
      match k with
      | Z0 => S754_zero s
      | _ => SF_of_ratio (if s then - k else k) 100
      end
  | _ => x
  end.

Definition round2 (x : float) : float := SF2Prim (SF_round2 (Prim2SF x)).

(** [int(x)]: truncation towards zero; [OverflowError] on an infinity,
    [ValueError] on NaN. *)
Definition trunc (x : float) : result Z :=
  match Prim2SF x with
  | S754_zero _ => Ok 0
  | S754_infinity _ => Raise OverflowError
  | S754_nan => Raise ValueError
  | S754_finite s m e => Ok (SF_trunc s m e)
  end.

End B64.

#[export] Instance binary64 : PyFloat float := {
  of_ratio := B64.of_ratio;
  of_long := B64.of_long;
  fadd := PrimFloat.add;
  fsub := PrimFloat.sub;
  fmul := PrimFloat.mul;
  fdiv := PrimFloat.div;
  fpow := B64.pow;
  round2 := B64.round2;
  trunc := B64.trunc;
  feqb := PrimFloat.eqb;
  fltb := PrimFloat.ltb;
  fleb := PrimFloat.leb
}.

(** ** Reading the rounding of [SpecFloat]

    What the order proofs below say about the library's rounding is written
    with the notions of this part. *)

(** A positive finite float. *)
Definition positive_finite (x : float) : bool :=
  match Prim2SF x with
  | S754_finite false _ _ => true
  | _ => false
  end.

(** Zero, a positive finite float or plus infinity. *)
Definition SF_nonneg (x : spec_float) : bool :=
  match x with
  | S754_zero false | S754_finite false _ _ | S754_infinity false => true
  | _ => false
  end.

(** The record a right shift works on, read as the number [N / D]: the
    integer part, the first digit after it and whether any later digit is
    set. *)
Definition shr_inv (mrs : shr_record) (N D : Z) : Prop :=
  0 < D /\ 0 <= N
  /\ shr_m mrs = N / D
  /\ shr_r mrs = (D <=? 2 * (N mod D))
  /\ shr_s mrs = negb ((2 * (N mod D)) mod D =? 0).

(** Where [N / D] lies between two integers. *)
Definition loc_of (N D : Z) : location :=
  if N mod D =? 0 then loc_Exact else loc_Inexact (2 * (N mod D) ?= D).

(** The float with sign [s], mantissa [M] (at most [2 ^ prec]) and exponent
    [E]: a full mantissa moves to the next exponent, and an exponent above the
    largest one gives an infinity. *)
Definition rnd (prec emax : Z) (s : bool) (M E : Z) : spec_float :=
  if M =? 0 then S754_zero s
  else if M <? 2 ^ prec then
    if E <=? emax - prec then S754_finite s (Z.to_pos M) E else S754_infinity s
  else
    if E + 1 <=? emax - prec then S754_finite s (Z.to_pos (2 ^ (prec - 1))) (E + 1)
    else S754_infinity s.

(** ** Data model ([customers/models.py], [loans/models.py]) *)

Record date : Type := {
  year : Z;
  month : Z;
  day : Z
}.

(** [d1 <= d2] on calendar dates. *)
Definition date_leb (d1 d2 : date) : bool :=
  (year d1 <? year d2)
  || ((year d1 =? year d2)
      && ((month d1 <? month d2)
          || ((month d1 =? month d2) && (day d1 <=? day d2)))).

Record Customer : Type := {
  customer_id : Z;
  first_name : string;
  last_name : string;
  phone_number : string;
  age : Z;
  monthly_salary : Z;
  approved_limit : Z;
  current_debt : Z
}.

(** [DecimalField(decimal_places=2)] columns hold hundredths. *)
Record Loan : Type := {
  loan_id : Z;
  customer : Z;
  loan_amount : Z;
  tenure : Z;
  interest_rate : Z;
  monthly_repayment : Z;
  emis_paid_on_time : Z;
  start_date : date;
  end_date : date
}.

(** [Loan.objects.filter(customer=customer)] *)
Definition loans_of (db : list Loan) (c : Customer) : list Loan :=
  filter (fun l => customer l =? customer_id c) db.

(** [.filter(end_date__gte=today)] *)
Definition current (today : date) (qs : list Loan) : list Loan :=
  filter (fun l => date_leb today (end_date l)) qs.

(** [.filter(start_date__year=y)] *)
Definition started_in (y : Z) (qs : list Loan) : list Loan :=
  filter (fun l => year (start_date l) =? y) qs.

(** [qs.aggregate(Sum(field))]: [None] over an empty query set. *)
Definition Sum (field : Loan -> Z) (qs : list Loan) : option Z :=
  match qs with
  | [] => None
  | _ => Some (fold_right (fun l acc => field l + acc) 0 qs)
  end.

(** [x or 0] *)
Definition or_zero (x : option Z) : Z :=
  match x with
  | Some v => v
  | None => 0
  end.

(** [qs.count()] *)
Definition count (qs : list Loan) : Z := Z.of_nat (List.length qs).

(** A rate or an amount as the views pass it around: the [Decimal] of the
    request (hundredths) or a [float]. *)
Inductive num (F : Type) : Type :=
| Dec (hundredths : Z)
| Flt (x : F).

Arguments Dec {F} hundredths.
Arguments Flt {F} x.

Section Engine.

Context {F : Type} `{PyFloat F}.

(** [float(x)] *)
Definition to_float (x : num F) : F :=
  match x with
  | Dec h => of_decimal h
  | Flt f => f
  end.

(** [x == 0] *)
Definition is_zero (x : num F) : bool :=
  match x with
  | Dec h => h =? 0
  | Flt f => feqb f (of_int 0)
  end.

(** [a / b] on floats: [ZeroDivisionError] on a zero divisor. *)
Definition float_div (a b : F) : result F :=
  if feqb b (of_int 0) then Raise ZeroDivisionError else Ok (fdiv a b).

(** [min(a, b)] and [max(a, b)]: the second argument is taken only when it is
    strictly smaller (larger). *)
Definition py_min (a b : F) : F := if fltb b a then b else a.
Definition py_max (a b : F) : F := if fltb a b then b else a.

(** *** [Loan.calculate_emi] ([loans/models.py]) *)

Definition calculate_emi (principal annual_rate : num F) (tenure_months : Z) : result F :=
  if is_zero annual_rate then
    if tenure_months =? 0 then Raise ZeroDivisionError
    else
      divisor <- of_long tenure_months ;;
      Ok (fdiv (to_float principal) divisor)
  else
    let monthly_rate := fdiv (fdiv (to_float annual_rate) (of_int 12)) (of_int 100) in
    p1 <- fpow (fadd (of_int 1) monthly_rate) tenure_months ;;
    p2 <- fpow (fadd (of_int 1) monthly_rate) tenure_months ;;
    emi <- float_div (fmul (fmul (to_float principal) monthly_rate) p1)
                     (fsub p2 (of_int 1)) ;;
    Ok (round2 emi).

(** *** [calculate_credit_score] ([loans/views.py]) *)

Definition utilization_ratio (db : list Loan) (today : date) (c : Customer) : F :=
  let total_current_amount := or_zero (Sum loan_amount (current today (loans_of db c))) in
  fdiv (of_decimal total_current_amount) (of_int (approved_limit c)).

Definition calculate_credit_score (db : list Loan) (today : date) (c : Customer) : result Z :=
  let loans := loans_of db c in
  match loans with
  | [] => Ok 50
  | _ =>
      let score := of_int 0 in
      (* Factor 1: past loans paid on time *)
      let total_emis := Sum tenure loans in
      let paid_on_time := Sum emis_paid_on_time loans in
      let score :=
        if 0 <? or_zero total_emis then
          let on_time_ratio := of_ratio (or_zero paid_on_time) (or_zero total_emis) in
          fadd score (py_min (of_int 40) (fmul on_time_ratio (of_int 40)))
        else score in
      (* Factor 2: number of past loans *)
      let loan_count := count loans in
      let score :=
        if loan_count <=? 5 then fadd score (of_int (loan_count * 4))
        else fadd score (of_int 20) in
      (* Factor 3: loan activity in the current year *)
      let current_year_loans := count (started_in (year today) loans) in
      let score := fadd score (of_int (Z.min 20 (current_year_loans * 5))) in
      (* Factor 4: approved volume against the limit *)
      let score :=
        if 0 <? approved_limit c then
          let u := utilization_ratio db today c in
          if fleb u (of_decimal 50) then fadd score (of_int 20)
          else if fleb u (of_decimal 75) then fadd score (of_int 10)
          else if fltb u (of_decimal 100) then fadd score (of_int 5)
          else of_int 0
        else score in
      s <- trunc score ;;
      Ok (Z.min 100 (Z.max 0 s))
  end.

(** *** [get_approval_decision] ([loans/views.py]) *)

Definition LIMIT_EXCEEDED : string := "Loan amount exceeds approved limit"%string.
Definition SCORE_TOO_LOW : string := "Credit score too low"%string.
Definition EMI_TOO_HIGH : string := "EMI exceeds 50% of monthly salary"%string.
Definition APPROVED : string := "Approved"%string.

(** The [if / elif] chain on the score: the tier's floor, or [None] where the
    chain ends in the rejection. *)
Definition min_interest (credit_score : Z) : option F :=
  if 50 <? credit_score then Some (of_decimal 1000)
  else if 30 <? credit_score then Some (of_decimal 1200)
  else if 10 <? credit_score then Some (of_decimal 1600)
  else None.

Definition get_approval_decision (db : list Loan) (today : date)
    (credit_score : Z) (c : Customer) (loan_amount' requested_rate tenure' : Z)
  : result (bool * num F * string) :=
  let current_loans := current today (loans_of db c) in
  let current_loan_sum := or_zero (Sum loan_amount current_loans) in
  if 100 * approved_limit c <? current_loan_sum + loan_amount' then
    Ok (false, Dec requested_rate, LIMIT_EXCEEDED)
  else
    match min_interest credit_score with
    | None => Ok (false, Dec requested_rate, SCORE_TOO_LOW)
    | Some floor =>
        let approved := true in
        let corrected_rate := py_max (of_decimal requested_rate) floor in
        monthly_emi <- calculate_emi (Dec loan_amount') (Flt corrected_rate) tenure' ;;
        let current_emis := or_zero (Sum monthly_repayment current_loans) in
        let total_emi := fadd monthly_emi (of_decimal current_emis) in
        if fltb (fmul (of_int (monthly_salary c)) (of_decimal 50)) total_emi then
          Ok (false, Flt corrected_rate, EMI_TOO_HIGH)
        else
          Ok (approved, Flt corrected_rate, APPROVED)
    end.

(** *** [check_eligibility] ([loans/views.py], [loans/serializers.py]) *)

Record EligibilityRequest : Type := {
  rq_customer_id : Z;
  rq_loan_amount : Z;
  rq_interest_rate : Z;
  rq_tenure : Z
}.

(** [LoanEligibilitySerializer.is_valid()]: two integer fields without
    bounds, [DecimalField(max_digits=12, decimal_places=2)] and
    [DecimalField(max_digits=5, decimal_places=2)]. *)
Definition is_valid (rq : EligibilityRequest) : bool :=
  (Z.abs (rq_loan_amount rq) <? 10 ^ 12) && (Z.abs (rq_interest_rate rq) <? 10 ^ 5).

Record response_data : Type := {
  rs_customer_id : Z;
  rs_approval : bool;
  rs_interest_rate : F;
  rs_corrected_interest_rate : num F;
  rs_tenure : Z;
  rs_monthly_installment : F;
  rs_message : option string
}.

(** What the view answers; [Eligibility d] is the 200 answer with the data. *)
Inductive response : Type :=
| HTTP_400_BAD_REQUEST
| HTTP_404_NOT_FOUND
| Eligibility (d : response_data).

(** [LoanEligibilityResponseSerializer(data=response_data).is_valid()]: the
    three floats have to pass their [DecimalField]s; the check is the
    framework's. *)
Variable response_is_valid : response_data -> bool.

Definition check_eligibility (customers : list Customer) (db : list Loan) (today : date)
    (rq : EligibilityRequest) : result response :=
  if negb (is_valid rq) then Ok HTTP_400_BAD_REQUEST
  else
    match find (fun c => customer_id c =? rq_customer_id rq) customers with
    | None => Ok HTTP_404_NOT_FOUND
    | Some c =>
        credit_score <- calculate_credit_score db today c ;;
        d <- get_approval_decision db today credit_score c
               (rq_loan_amount rq) (rq_interest_rate rq) (rq_tenure rq) ;;
        let '(approval, corrected_rate, message) := d in
        monthly_installment <-
          calculate_emi (Dec (rq_loan_amount rq)) corrected_rate (rq_tenure rq) ;;
        let response_data :=
          {| rs_customer_id := rq_customer_id rq;
             rs_approval := approval;
             rs_interest_rate := of_decimal (rq_interest_rate rq);
             rs_corrected_interest_rate := corrected_rate;
             rs_tenure := rq_tenure rq;
             rs_monthly_installment := monthly_installment;
             rs_message := if approval then None else Some message |} in
        if response_is_valid response_data then Ok (Eligibility response_data)
        else Ok HTTP_400_BAD_REQUEST
    end.

End Engine.

(** ** [CustomerRegistrationSerializer.create] ([customers/serializers.py]) *)

Record registration : Type := {
  rg_first_name : string;
  rg_last_name : string;
  rg_age : Z;
  rg_monthly_income : Z;
  rg_phone_number : string
}.

(** [round(n, -5)] on an int. *)
Definition round_to_lakh (n : Z) : Z := round_half_even n 100000 * 100000.

(** The [AutoField] key of the next row. *)
Definition next_customer_id (customers : list Customer) : Z :=
  1 + fold_right (fun c acc => Z.max (customer_id c) acc) 0 customers.

Section Backend.

(** The [DATABASES] setting is not among these sources, so the backend is a
    parameter: [integer_column n] tells whether it stores [n] in an
    [IntegerField] column (64 bits on SQLite, 32 on PostgreSQL and MySQL), and
    [out_of_range] is what the insert raises otherwise ([OverflowError] from
    [sqlite3]). *)
Variable integer_column : Z -> bool.
Variable out_of_range : exn.

(** [create]: [Customer.objects.create] raises, and no row is written, when
    an integer does not fit its column. *)
Definition create (customers : list Customer) (validated_data : registration)
  : result Customer :=
  let monthly_income := rg_monthly_income validated_data in
  let approved_limit' := round_to_lakh (36 * monthly_income) in
  if integer_column (rg_age validated_data)
     && integer_column monthly_income
     && integer_column approved_limit'
  then
    Ok {| customer_id := next_customer_id customers;
          first_name := rg_first_name validated_data;
          last_name := rg_last_name validated_data;
          phone_number := rg_phone_number validated_data;
          age := rg_age validated_data;
          monthly_salary := monthly_income;
          approved_limit := approved_limit';
          current_debt := 0 |}
  else Raise out_of_range.

End Backend.

(** ** Model methods ([customers/models.py], [loans/models.py]) *)

(** [Customer.full_name] *)
Definition full_name (c : Customer) : string :=
  (first_name c ++ " " ++ last_name c)%string.

(** [Loan.repayments_left] *)
Definition repayments_left (l : Loan) : Z :=
  Z.max 0 (tenure l - emis_paid_on_time l).

(** [Loan.is_current_loan] *)
Definition is_current_loan (today : date) (l : Loan) : bool :=
  date_leb today (end_date l).

(** ** [date + timedelta(days=n)], as Python's [datetime] computes it *)

Module PyDate.

Definition is_leap (y : Z) : bool :=
  (y mod 4 =? 0) && (negb (y mod 100 =? 0) || (y mod 400 =? 0)).

Definition days_before_year (y : Z) : Z :=
  let y' := y - 1 in
  y' * 365 + y' / 4 - y' / 100 + y' / 400.

Definition DAYS_IN_MONTH (m : Z) : Z :=
  nth (Z.to_nat m) [0; 31; 28; 31; 30; 31; 30; 31; 31; 30; 31; 30; 31] 0.

Definition DAYS_BEFORE_MONTH (m : Z) : Z :=
  nth (Z.to_nat m) [0; 0; 31; 59; 90; 120; 151; 181; 212; 243; 273; 304; 334] 0.

Definition days_before_month (y m : Z) : Z :=
  DAYS_BEFORE_MONTH m + (if (2 <? m) && is_leap y then 1 else 0).

(** [date.toordinal()]: 1 is 0001-01-01. *)
Definition toordinal (d : date) : Z :=
  days_before_year (year d) + days_before_month (year d) (month d) + day d.

Definition DI400Y : Z := 146097.
Definition DI100Y : Z := 36524.
Definition DI4Y : Z := 1461.
Definition MAXORDINAL : Z := 3652059.

(** [date.fromordinal(n)] *)
Definition fromordinal (n : Z) : date :=
  let n := n - 1 in
  let n400 := n / DI400Y in
  let n := n mod DI400Y in
  let y := n400 * 400 + 1 in
  let n100 := n / DI100Y in
  let n := n mod DI100Y in
  let n4 := n / DI4Y in
  let n := n mod DI4Y in
  let n1 := n / 365 in
  let n := n mod 365 in
  let y := y + n100 * 100 + n4 * 4 + n1 in
  if (n1 =? 4) || (n100 =? 4) then {| year := y - 1; month := 12; day := 31 |}
  else
    let leapyear := (n1 =? 3) && (negb (n4 =? 24) || (n100 =? 3)) in
    let m := (n + 50) / 32 in
    let preceding := DAYS_BEFORE_MONTH m + (if (2 <? m) && leapyear then 1 else 0) in
    let '(m, preceding) :=
      if n <? preceding
      then (m - 1,
            preceding - (DAYS_IN_MONTH (m - 1)
                         + (if (m - 1 =? 2) && leapyear then 1 else 0)))
      else (m, preceding) in
    {| year := y; month := m; day := n - preceding + 1 |}.

(** [d + timedelta(days=n)]: [OverflowError] when the [timedelta] or the
    resulting date is out of range. *)
Definition plus_days (d : date) (n : Z) : result date :=
  if 999999999 <? Z.abs n then Raise OverflowError
  else
    let o := toordinal d + n in
    if (0 <? o) && (o <=? MAXORDINAL) then Ok (fromordinal o)
    else Raise OverflowError.

End PyDate.

(** ** Output serializers ([loans/serializers.py]) *)

(** [CustomerLoanSerializer]: [monthly_installment] reads
    [monthly_repayment]. *)
Record CustomerLoan : Type := {
  cl_loan_id : Z;
  cl_loan_amount : Z;
  cl_interest_rate : Z;
  cl_monthly_installment : Z;
  cl_repayments_left : Z
}.

Definition CustomerLoanSerializer (l : Loan) : CustomerLoan :=
  {| cl_loan_id := loan_id l;
     cl_loan_amount := loan_amount l;
     cl_interest_rate := interest_rate l;
     cl_monthly_installment := monthly_repayment l;
     cl_repayments_left := repayments_left l |}.

(** [CustomerMiniProfileSerializer] ([customers/serializers.py]) *)
Record CustomerMiniProfile : Type := {
  mp_customer_id : Z;
  mp_first_name : string;
  mp_last_name : string;
  mp_phone_number : string;
  mp_age : Z
}.

Definition CustomerMiniProfileSerializer (c : Customer) : CustomerMiniProfile :=
  {| mp_customer_id := customer_id c;
     mp_first_name := first_name c;
     mp_last_name := last_name c;
     mp_phone_number := phone_number c;
     mp_age := age c |}.

(** [LoanDetailSerializer] *)
Record LoanDetail : Type := {
  ld_loan_id : Z;
  ld_customer : CustomerMiniProfile;
  ld_loan_amount : Z;
  ld_interest_rate : Z;
  ld_monthly_repayment : Z;
  ld_tenure : Z;
  ld_start_date : date;
  ld_end_date : date
}.

Definition LoanDetailSerializer (l : Loan) (c : Customer) : LoanDetail :=
  {| ld_loan_id := loan_id l;
     ld_customer := CustomerMiniProfileSerializer c;
     ld_loan_amount := loan_amount l;
     ld_interest_rate := interest_rate l;
     ld_monthly_repayment := monthly_repayment l;
     ld_tenure := tenure l;
     ld_start_date := start_date l;
     ld_end_date := end_date l |}.

(** ** The other views ([loans/views.py])

    A table is listed newest row first, the order of [Meta.ordering =
    ['-created_at']]; a created row goes to the front. *)

Inductive loan_response : Type :=
| Loan_404
| Loan_200 (d : LoanDetail)
(** the foreign key names no row of [customers]: [loan.customer] raises *)
| Loan_customer_missing.

(** [view_loan] *)
Definition view_loan (customers : list Customer) (db : list Loan) (id : Z)
  : loan_response :=
  match find (fun l => loan_id l =? id) db with
  | None => Loan_404
  | Some l =>
      match find (fun c => customer_id c =? customer l) customers with
      | None => Loan_customer_missing
      | Some c => Loan_200 (LoanDetailSerializer l c)
      end
  end.

(** [view_customer_loans]: [None] is the 404 answer. *)
Definition view_customer_loans (customers : list Customer) (db : list Loan)
    (today : date) (id : Z) : option (list CustomerLoan) :=
  match find (fun c => customer_id c =? id) customers with
  | None => None
  | Some c => Some (map CustomerLoanSerializer (current today (loans_of db c)))
  end.

Section Creation.

Context {F : Type} `{PyFloat F}.

(** [Decimal(str(x))] as a [DecimalField(max_digits, decimal_places=2)] column
    stores it, in hundredths; the conversion is Python's and Django's. *)
Variable to_decimal : Z -> F -> result Z.

(** Whether [DecimalField(max_digits=12, decimal_places=2)] of
    [LoanCreationResponseSerializer] accepts the installment, a float; the
    check is the framework's. *)
Variable installment_is_valid : F -> bool.

Record creation_data : Type := {
  cr_loan_id : option Z;
  cr_customer_id : Z;
  cr_loan_approved : bool;
  cr_message : string;
  cr_monthly_installment : option F
}.

Inductive creation_response : Type :=
| Creation_400
| Creation_404
| Creation_200 (d : creation_data).

Definition LOAN_APPROVED : string := "Loan approved successfully"%string.

(** [create_loan].  [LoanCreationSerializer] has the fields of
    [LoanEligibilitySerializer]; [new_id] is the key the database gives the
    new row, the key of no row of the table.  The result is the answer and the
    [loans] table after the call.

    The view ends on [response_serializer.is_valid()], after the row is
    written: 200 with the data, 400 otherwise.  The data of a rejection is
    always valid ([loan_id] may be null, the message is one of three constants
    and the installment, which is not required, is left out); the data of an
    approval is valid when its installment is. *)
Definition create_loan (customers : list Customer) (db : list Loan) (today : date)
    (new_id : Z) (rq : EligibilityRequest)
  : result (creation_response * list Loan) :=
  if negb (is_valid rq) then Ok (Creation_400, db)
  else
    match find (fun c => customer_id c =? rq_customer_id rq) customers with
    | None => Ok (Creation_404, db)
    | Some c =>
        credit_score <- calculate_credit_score db today c ;;
        d <- get_approval_decision db today credit_score c
               (rq_loan_amount rq) (rq_interest_rate rq) (rq_tenure rq) ;;
        let '(approval, corrected_rate, message) := d in
        if approval then
          monthly_installment <-
            calculate_emi (Dec (rq_loan_amount rq)) corrected_rate (rq_tenure rq) ;;
          let start_date' := today in
          end_date' <- PyDate.plus_days start_date' (rq_tenure rq * 30) ;;
          rate' <- to_decimal 5 (to_float corrected_rate) ;;
          repayment' <- to_decimal 12 monthly_installment ;;
          let loan :=
            {| loan_id := new_id;
               customer := customer_id c;
               loan_amount := rq_loan_amount rq;
               tenure := rq_tenure rq;
               interest_rate := rate';
               monthly_repayment := repayment';
               emis_paid_on_time := 0;
               start_date := start_date';
               end_date := end_date' |} in
          let response_data :=
            {| cr_loan_id := Some new_id;
               cr_customer_id := rq_customer_id rq;
               cr_loan_approved := true;
               cr_message := LOAN_APPROVED;
               cr_monthly_installment := Some monthly_installment |} in
          Ok (if installment_is_valid monthly_installment
              then Creation_200 response_data
              else Creation_400,
              loan :: db)
        else
          Ok (Creation_200
                {| cr_loan_id := None;
                   cr_customer_id := rq_customer_id rq;
                   cr_loan_approved := false;
                   cr_message := message;
                   cr_monthly_installment := None |},
              db)
    end.

End Creation.

(** ** Ingestion ([ingestion/tasks.py])

    A spreadsheet is read as the list of its rows, each row already converted
    ([int(...)], [Decimal(str(...))], [strptime]) or raising in a conversion. *)

Section UpdateOrCreate.

Context {A : Type} (key : A -> Z).

(** [objects.update_or_create(key=..., defaults=...)] with every other column
    in [defaults]: the row replaces the one with its key, or is created.  The
    flag is [created]. *)
Definition update_or_create (row : A) (table : list A) : list A * bool :=
  if existsb (fun r => key r =? key row) table
  then (map (fun r => if key r =? key row then row else r) table, false)
  else (row :: table, true).

End UpdateOrCreate.

Section Settle.

Context {A : Type} (key : A -> Z).

(** The table after the rows are applied in order. *)
Definition apply_rows (rows : list A) (table : list A) : list A :=
  fold_left (fun t row => fst (update_or_create key row t)) rows table.

(** What a table element has become once the rows are applied in order. *)
Fixpoint settle (rows : list A) (x : A) : A :=
  match rows with
  | [] => x
  | row :: rest => settle rest (if key x =? key row then row else x)
  end.

End Settle.

Record ingestion_counts : Type := {
  created : Z;
  updated : Z;
  total_processed : Z
}.

(** The dict a task returns: [{"status": "success", ...}] or
    [{"status": "error", ...}]. *)
Inductive ingestion_status : Type :=
| Ingest_success (n : ingestion_counts)
| Ingest_error.

(** The loop of [ingest_customer_data]; [None] when a row raises, which the
    task's [except Exception] turns into the error status. *)
Fixpoint ingest_customer_rows (rows : list (result Customer)) (table : list Customer)
    (customers_created customers_updated : Z) : list Customer * option (Z * Z) :=
  match rows with
  | [] => (table, Some (customers_created, customers_updated))
  | Raise _ :: _ => (table, None)
  | Ok row :: rest =>
      let '(table', was_created) := update_or_create customer_id row table in
      if was_created
      then ingest_customer_rows rest table' (customers_created + 1) customers_updated
      else ingest_customer_rows rest table' customers_created (customers_updated + 1)
  end.

Definition ingest_customer_data (rows : list (result Customer)) (table : list Customer)
  : list Customer * ingestion_status :=
  let '(table', counts) := ingest_customer_rows rows table 0 0 in
  (table',
   match counts with
   | Some (c, u) =>
       Ingest_success {| created := c; updated := u;
                         total_processed := Z.of_nat (List.length rows) |}
   | None => Ingest_error
   end).

(** The loop of [ingest_loan_data]: a row whose customer does not exist is
    skipped ([continue]). *)
Fixpoint ingest_loan_rows (customers : list Customer) (rows : list (result Loan))
    (table : list Loan) (loans_created loans_updated : Z)
  : list Loan * option (Z * Z) :=
  match rows with
  | [] => (table, Some (loans_created, loans_updated))
  | Raise _ :: _ => (table, None)
  | Ok row :: rest =>
      match find (fun c => customer_id c =? customer row) customers with
      | None => ingest_loan_rows customers rest table loans_created loans_updated
      | Some _ =>
          let '(table', was_created) := update_or_create loan_id row table in
          if was_created
          then ingest_loan_rows customers rest table' (loans_created + 1) loans_updated
          else ingest_loan_rows customers rest table' loans_created (loans_updated + 1)
      end
  end.

Definition ingest_loan_data (customers : list Customer) (rows : list (result Loan))
    (table : list Loan) : list Loan * ingestion_status :=
  let '(table', counts) := ingest_loan_rows customers rows table 0 0 in
  (table',
   match counts with
   | Some (c, u) =>
       Ingest_success {| created := c; updated := u;
                         total_processed := Z.of_nat (List.length rows) |}
   | None => Ingest_error
   end).

(** [ingest_initial_data]: customers first, then loans against the customers
    just ingested. *)
Definition ingest_initial_data (customer_rows : list (result Customer))
    (loan_rows : list (result Loan)) (customers : list Customer) (loans : list Loan)
  : (list Customer * list Loan) * (ingestion_status * ingestion_status) :=
  let '(customers', customer_result) := ingest_customer_data customer_rows customers in
  let '(loans', loan_result) := ingest_loan_data customers' loan_rows loans in
  ((customers', loans'), (customer_result, loan_result)).

(** ** Sample data *)

Module Sample.

Definition on (y m d : Z) : date := {| year := y; month := m; day := d |}.

Definition today : date := on 2025 6 1.

(** Income 50,000, limit 1,800,000. *)
Definition asha : Customer :=
  {| customer_id := 1; first_name := "Asha"; last_name := "Rao";
     phone_number := "9000000001"; age := 31;
     monthly_salary := 50000; approved_limit := 1800000; current_debt := 0 |}.

(** Limit 100,000, used up by one loan. *)
Definition ravi : Customer :=
  {| customer_id := 2; first_name := "Ravi"; last_name := "Iyer";
     phone_number := "9000000002"; age := 45;
     monthly_salary := 30000; approved_limit := 100000; current_debt := 0 |}.

(** 100,000.00 over 12 months, every EMI paid on time, still running. *)
Definition ravi_loan : Loan :=
  {| loan_id := 7; customer := 2; loan_amount := 10000000; tenure := 12;
     interest_rate := 1000; monthly_repayment := 879159; emis_paid_on_time := 12;
     start_date := on 2025 1 1; end_date := on 2026 1 1 |}.

(** 1,700,000.00 running on Asha's account. *)
Definition asha_loan : Loan :=
  {| loan_id := 8; customer := 1; loan_amount := 170000000; tenure := 120;
     interest_rate := 1000; monthly_repayment := 2246563; emis_paid_on_time := 10;
     start_date := on 2024 8 1; end_date := on 2034 6 9 |}.

Definition customers : list Customer := [asha; ravi].

Definition request (amount rate n : Z) : EligibilityRequest :=
  {| rq_customer_id := 1; rq_loan_amount := amount;
     rq_interest_rate := rate; rq_tenure := n |}.

(** For the sample calls of [create_loan]: the hundredth nearest to [x],
    standing in for the stored [Decimal(str(x))]. *)
Definition to_decimal (max_digits : Z) (x : float) : result Z :=
  match Prim2SF x with
  | S754_zero _ => Ok 0
  | S754_finite s m e =>
      let k := match e with
               | Zneg d => round_half_even (100 * Zpos m) (Z.pow_pos 2 d)
               | _ => 100 * Zpos m * 2 ^ e
               end in
      Ok (if s then - k else k)
  | _ => Raise ValueError
  end.

(** For the sample calls of [create_loan]: fewer than eleven whole digits,
    standing in for the check of the response's [DecimalField]. *)
Definition installment_is_valid (x : float) : bool :=
  PrimFloat.ltb (PrimFloat.abs x) 10000000000.

(** For the sample calls of [check_eligibility], in the same way. *)
Definition response_is_valid (d : response_data) : bool :=
  installment_is_valid (rs_monthly_installment d).

(** The integers [sqlite3] stores: 64 bits, signed. *)
Definition sqlite_integer (n : Z) : bool :=
  (- 2 ^ 63 <=? n) && (n <? 2 ^ 63).

(** Asha again, with a raised income, as a spreadsheet row would carry her. *)
Definition asha_row : Customer :=
  {| customer_id := 1; first_name := "Asha"; last_name := "Rao";
     phone_number := "9000000001"; age := 32;
     monthly_salary := 60000; approved_limit := 2200000; current_debt := 0 |}.

(** The row [create_loan] adds for Asha's request of 200,000.00 at 8% over 24
    months, under the key 10. *)
Definition new_loan : Loan :=
  {| loan_id := 10; customer := 1; loan_amount := 20000000; tenure := 24;
     interest_rate := 1200; monthly_repayment := 941469; emis_paid_on_time := 0;
     start_date := on 2025 6 1; end_date := on 2027 5 22 |}.

Definition approval_answer : creation_data (F:=float) :=
  {| cr_loan_id := Some 10; cr_customer_id := 1; cr_loan_approved := true;
     cr_message := LOAN_APPROVED;
     cr_monthly_installment := Some (of_decimal 941469) |}.

Definition registration_of (income : Z) : registration :=
  {| rg_first_name := "Asha"; rg_last_name := "Rao"; rg_age := 31;
     rg_monthly_income := income; rg_phone_number := "9000000001" |}.

(** A loan row of a customer who is not in the table. *)
Definition orphan_loan : Loan :=
  {| loan_id := 9; customer := 77; loan_amount := 5000000; tenure := 12;
     interest_rate := 1200; monthly_repayment := 444244; emis_paid_on_time := 3;
     start_date := on 2025 2 1; end_date := on 2026 2 1 |}.

End Sample.

(** * Properties *)

(** ** The approval policy, for any float arithmetic *)

Section Policy.

Context {F : Type} `{PyFloat F}.

Variables (db : list Loan) (today : date) (c : Customer).

(** The two aggregates over the customer's current loans. *)
Let current_loan_sum := or_zero (Sum loan_amount (current today (loans_of db c))).
Let current_emis := or_zero (Sum monthly_repayment (current today (loans_of db c))).

Lemma min_interest_tiers (s : Z) :
  (50 < s -> min_interest s = Some (of_decimal 1000))
  /\ (30 < s <= 50 -> min_interest s = Some (of_decimal 1200))
  /\ (10 < s <= 30 -> min_interest s = Some (of_decimal 1600))
  /\ (s <= 10 -> min_interest (F:=F) s = None).
Proof.
  unfold min_interest.
  destruct (50 <? s) eqn:E50; [apply Z.ltb_lt in E50 | apply Z.ltb_ge in E50];
  destruct (30 <? s) eqn:E30; [apply Z.ltb_lt in E30 | apply Z.ltb_ge in E30 | apply Z.ltb_lt in E30 | apply Z.ltb_ge in E30];
  destruct (10 <? s) eqn:E10; [apply Z.ltb_lt in E10 | apply Z.ltb_ge in E10 | apply Z.ltb_lt in E10 | apply Z.ltb_ge in E10 | apply Z.ltb_lt in E10 | apply Z.ltb_ge in E10 | apply Z.ltb_lt in E10 | apply Z.ltb_ge in E10];
  repeat split; intros; try reflexivity; lia.
Qed.

(** Past the limit check the decision is the score chain followed by the
    affordability test. *)
Lemma decision_within_limit (score amount rate n : Z) :
  current_loan_sum + amount <= 100 * approved_limit c ->
  get_approval_decision db today score c amount rate n =
  match min_interest score with
  | None => Ok (false, Dec rate, SCORE_TOO_LOW)
  | Some floor =>
      let corrected_rate := py_max (of_decimal rate) floor in
      monthly_emi <- calculate_emi (Dec amount) (Flt corrected_rate) n ;;
      if fltb (fmul (of_int (monthly_salary c)) (of_decimal 50))
              (fadd monthly_emi (of_decimal current_emis))
      then Ok (false, Flt corrected_rate, EMI_TOO_HIGH)
      else Ok (true, Flt corrected_rate, APPROVED)
  end.
Proof.
  intros Hlim. unfold get_approval_decision.
  fold current_loan_sum.
  replace (100 * approved_limit c <? current_loan_sum + amount) with false
    by (symmetry; apply Z.ltb_ge; exact Hlim).
  reflexivity.
Qed.

(** C3. When the principal of the current loans plus the requested amount
    exceeds the approved limit, the decision is the [LIMIT_EXCEEDED]
    rejection carrying the requested rate unchanged, whatever the score (a
    score of 10 or less included) and whatever the tenure: neither the score
    chain nor the EMI is looked at. *)
Theorem limit_exceeded_rejects (score amount rate n : Z) :
  100 * approved_limit c < current_loan_sum + amount ->
  get_approval_decision db today score c amount rate n
  = Ok (false, Dec rate, LIMIT_EXCEEDED).
Proof.
  intros Hlim. unfold get_approval_decision.
  fold current_loan_sum.
  apply Z.ltb_lt in Hlim. rewrite Hlim. reflexivity.
Qed.

(** C2. Past the limit check the score picks the floor by strict
    comparisons, and the decision goes on with that floor: with a score of 51
    the rate is corrected against 10.0, with 50 and with 31 against 12.0, with
    30 and with 11 against 16.0 (and so for every score above 50, from 31 to
    50 and from 11 to 30), the EMI is computed at that corrected rate and the
    affordability test decides.  With any score of 10 or less the request is
    rejected with [SCORE_TOO_LOW] and the requested rate unchanged, for every
    tenure, 0 included, where computing an EMI would raise: no affordability
    check is made. *)
Theorem score_tier_boundaries (amount rate n : Z) :
  current_loan_sum + amount <= 100 * approved_limit c ->
  let decides (score : Z) (min_rate : F) :=
    get_approval_decision db today score c amount rate n
    = (let corrected_rate := py_max (of_decimal rate) min_rate in
       monthly_emi <- calculate_emi (Dec amount) (Flt corrected_rate) n ;;
       if fltb (fmul (of_int (monthly_salary c)) (of_decimal 50))
               (fadd monthly_emi (of_decimal current_emis))
       then Ok (false, Flt corrected_rate, EMI_TOO_HIGH)
       else Ok (true, Flt corrected_rate, APPROVED)) in
  decides 51 (of_decimal 1000)
  /\ decides 50 (of_decimal 1200)
  /\ decides 31 (of_decimal 1200)
  /\ decides 30 (of_decimal 1600)
  /\ decides 11 (of_decimal 1600)
  /\ (forall score, 50 < score -> decides score (of_decimal 1000))
  /\ (forall score, 30 < score <= 50 -> decides score (of_decimal 1200))
  /\ (forall score, 10 < score <= 30 -> decides score (of_decimal 1600))
  /\ (forall score, score <= 10 ->
        get_approval_decision db today score c amount rate n
        = Ok (false, Dec rate, SCORE_TOO_LOW)).
Proof.
  intros Hlim decides.
  assert (Htier : forall score floor,
             min_interest score = Some floor -> decides score floor).
  { intros score floor Hfloor. unfold decides.
    rewrite decision_within_limit by exact Hlim. rewrite Hfloor. reflexivity. }
  split; [apply Htier; reflexivity|].
  split; [apply Htier; reflexivity|].
  split; [apply Htier; reflexivity|].
  split; [apply Htier; reflexivity|].
  split; [apply Htier; reflexivity|].
  split; [|split; [|split]]; intros score Hs;
    destruct (min_interest_tiers score) as (H1 & H2 & H3 & H4).
  - apply Htier, H1, Hs.
  - apply Htier, H2, Hs.
  - apply Htier, H3, Hs.
  - rewrite decision_within_limit by exact Hlim. rewrite (H4 Hs). reflexivity.
Qed.

(** C4. A request that passes the limit check with a score above 10 gets a
    tier floor, and with the EMI computed at the corrected rate
    [max(float(rate), floor)] the decision is the [EMI_TOO_HIGH] rejection
    exactly when that EMI plus the installments of the current loans is
    greater than half the monthly salary; the rejection carries the corrected
    rate, and otherwise the request is approved with [APPROVED] at the
    corrected rate. *)
Theorem affordability_decides (score amount rate n : Z) (monthly_emi : F) :
  current_loan_sum + amount <= 100 * approved_limit c ->
  10 < score ->
  exists floor : F,
    min_interest score = Some floor /\
    let corrected_rate := py_max (of_decimal rate) floor in
    let total_emi := fadd monthly_emi (of_decimal current_emis) in
    let half_salary := fmul (of_int (monthly_salary c)) (of_decimal 50) in
    calculate_emi (Dec amount) (Flt corrected_rate) n = Ok monthly_emi ->
    (forall r, get_approval_decision db today score c amount rate n
               = Ok (false, r, EMI_TOO_HIGH)
               <-> (fltb half_salary total_emi = true /\ r = Flt corrected_rate))
    /\ (fltb half_salary total_emi = false ->
        get_approval_decision db today score c amount rate n
        = Ok (true, Flt corrected_rate, APPROVED)).
Proof.
  intros Hlim Hs.
  assert (Hfloor : exists floor : F, min_interest score = Some floor).
  { destruct (min_interest_tiers score) as (H1 & H2 & H3 & _).
    destruct (Z_lt_le_dec 50 score) as [L|L]; [eauto|].
    destruct (Z_lt_le_dec 30 score) as [L'|L']; [eexists; apply H2; lia|].
    eexists; apply H3; lia. }
  destruct Hfloor as [floor Hfloor]. exists floor. split; [exact Hfloor|].
  intros corrected_rate total_emi half_salary Hemi.
  rewrite decision_within_limit by exact Hlim.
  rewrite Hfloor. cbv zeta. fold corrected_rate. rewrite Hemi. cbn [bind].
  fold total_emi half_salary.
  destruct (fltb half_salary total_emi); split.
  - intros r; split.
    + intros E. injection E as <-. split; reflexivity.
    + intros [_ ->]. reflexivity.
  - discriminate.
  - intros r; split.
    + intros E. discriminate E.
    + intros [E _]. discriminate E.
  - reflexivity.
Qed.

End Policy.

(** ** The EMI calculator and the eligibility view, for any float arithmetic *)

Section Calculator.

Context {F : Type} `{PyFloat F}.

(** C6, as the code has it.  With a rate equal to 0 and a tenure [n > 0]
    the tenure is converted to a float and the result is the quotient
    [float(p) / float(n)] itself, with [round2] not applied; when the tenure
    is too large for a float the conversion raises and so does the call. *)
Theorem emi_zero_rate_is_quotient (p r : num F) (n : Z) :
  is_zero r = true ->
  0 < n ->
  calculate_emi p r n
  = match of_long n with
    | Ok divisor => Ok (fdiv (to_float p) divisor)
    | Raise e => Raise e
    end.
Proof.
  intros Hr Hn. unfold calculate_emi. rewrite Hr.
  replace (n =? 0) with false by (symmetry; apply Z.eqb_neq; lia).
  destruct (of_long n); reflexivity.
Qed.

Lemma bind_Ok {A B : Type} (r : result A) (k : A -> result B) (b : B) :
  bind r k = Ok b -> exists a, r = Ok a /\ k a = Ok b.
Proof.
  destruct r as [a|e]; cbn; intros E; [eauto | discriminate].
Qed.

(** Every way [get_approval_decision] returns. *)
Lemma decision_returns (db : list Loan) (today : date) (score : Z) (c : Customer)
    (amount rate n : Z) (a : bool) (r : num F) (m : string) :
  get_approval_decision db today score c amount rate n = Ok (a, r, m) ->
  (a = false /\ r = Dec rate /\ (m = LIMIT_EXCEEDED \/ m = SCORE_TOO_LOW))
  \/ (exists floor emi,
        min_interest score = Some floor
        /\ r = Flt (py_max (of_decimal rate) floor)
        /\ calculate_emi (Dec amount) r n = Ok emi
        /\ ((a = false /\ m = EMI_TOO_HIGH) \/ (a = true /\ m = APPROVED))).
Proof.
  unfold get_approval_decision.
  destruct (100 * approved_limit c <? _).
  - intros E. injection E as <- <- <-. left. auto.
  - destruct (min_interest score) as [floor|].
    + cbv zeta. intros E. apply bind_Ok in E. destruct E as (emi & Hemi & E).
      right. exists floor, emi.
      destruct (fltb _ _); injection E as <- <- <-; auto 10.
    + intros E. injection E as <- <- <-. left. auto.
Qed.

Lemma messages_differ :
  EMI_TOO_HIGH <> LIMIT_EXCEEDED /\ EMI_TOO_HIGH <> SCORE_TOO_LOW
  /\ APPROVED <> LIMIT_EXCEEDED /\ APPROVED <> SCORE_TOO_LOW.
Proof. repeat split; discriminate. Qed.


End Calculator.

(** ** Registration *)

Lemma round_half_even_nearest (n d k : Z) :
  0 < d ->
  Z.abs (n - round_half_even n d * d) <= Z.abs (n - k * d).
Proof.
  intros Hd. unfold round_half_even.
  pose proof (Z.div_mod n d ltac:(lia)) as Hn.
  pose proof (Z.mod_pos_bound n d Hd) as Hr.
  set (q := n / d) in *. set (r := n mod d) in *.
  assert (Hk : k <= q \/ q + 1 <= k) by lia.
  assert (Hlow : k <= q -> r <= n - k * d) by nia.
  assert (Hhigh : q + 1 <= k -> d - r <= k * d - n) by nia.
  destruct (Z.compare_spec (2 * r) d) as [E|L|G];
    [destruct (Z.even q)|..]; nia.
Qed.

(** C9, as the code has it.  A registration whose age, income and computed
    limit fit the integer columns of the database creates the customer with
    [approved_limit] a multiple of 100,000 that no other multiple is nearer to
    [36 * monthly_income] (ties go to the even multiple of 100,000), with the
    income stored as [monthly_salary] and [current_debt] 0; an income of
    50,000 gives 1,800,000.  When one of the three does not fit, the insert
    raises and no customer is created.  The sign of the income plays no
    part. *)
Theorem registration_approved_limit (integer_column : Z -> bool) (out_of_range : exn)
    (customers : list Customer) (v : registration) :
  let m := rg_monthly_income v in
  let fits := integer_column (rg_age v) && integer_column m
              && integer_column (round_to_lakh (36 * m)) in
  (fits = true ->
   exists cu,
     create integer_column out_of_range customers v = Ok cu
     /\ approved_limit cu = round_to_lakh (36 * m)
     /\ (exists k, approved_limit cu = k * 100000)
     /\ (forall k, Z.abs (36 * m - approved_limit cu) <= Z.abs (36 * m - k * 100000))
     /\ (m = 50000 -> approved_limit cu = 1800000)
     /\ monthly_salary cu = m
     /\ current_debt cu = 0)
  /\ (fits = false ->
      create integer_column out_of_range customers v = Raise out_of_range).
Proof.
  intros m fits. unfold create. fold m. fold fits.
  split; intros Hfits; rewrite Hfits; [|reflexivity].
  eexists. split; [reflexivity|]. cbn. repeat split.
  - eexists. unfold round_to_lakh. reflexivity.
  - intros k. unfold round_to_lakh. apply round_half_even_nearest. lia.
  - intros ->. reflexivity.
Qed.

Lemma registration_approved_limit_witness :
  exists cu,
    create Sample.sqlite_integer OverflowError [] (Sample.registration_of 50000) = Ok cu
    /\ approved_limit cu = 1800000
    /\ current_debt cu = 0.
Proof.
  destruct (proj1 (registration_approved_limit Sample.sqlite_integer OverflowError []
                     (Sample.registration_of 50000)) eq_refl)
    as (cu & Hcu & _ & _ & _ & H50 & _ & Hdebt).
  exists cu. split; [exact Hcu|]. split; [apply H50; reflexivity | exact Hdebt].
Defined.

(** Against C9: with an income of [10 ^ 18] the limit is beyond the 64 bits
    [sqlite3] stores (and beyond every narrower column): the insert raises and
    no customer is created. *)
Lemma registration_out_of_range :
  0 <= rg_monthly_income (Sample.registration_of (10 ^ 18))
  /\ create Sample.sqlite_integer OverflowError [] (Sample.registration_of (10 ^ 18))
     = Raise OverflowError.
Proof. split; vm_compute; [discriminate | reflexivity]. Qed.

(** ** binary64: order facts read off the comparison of [spec_float]s *)

Section Binary64Order.

Local Open Scope float_scope.

Lemma SFcompare_refl (x : spec_float) :
  x <> S754_nan -> SFcompare x x = Some Eq.
Proof.
  destruct x as [s|s| |s m e]; intros Hx; cbn; try congruence.
  - destruct s; reflexivity.
  - rewrite Z.compare_refl.
    pose proof (Pos.compare_refl m) as R. unfold Pos.compare in R. rewrite R.
    destruct s; reflexivity.
Qed.

Lemma ltb_leb (x y : float) : (x <? y) = true -> (x <=? y) = true.
Proof.
  rewrite ltb_spec, leb_spec. unfold SFltb, SFleb.
  destruct (SFcompare (Prim2SF x) (Prim2SF y)) as [[]|]; congruence.
Qed.

Lemma leb_refl (x : float) : Prim2SF x <> S754_nan -> (x <=? x) = true.
Proof.
  intros Hx. rewrite leb_spec. unfold SFleb.
  rewrite SFcompare_refl by exact Hx. reflexivity.
Qed.

(** A value at or above a float of exponent -52 is above every float of
    exponent -53 and not below the first. *)
Lemma SF_above (M1 M2 M3 : positive) (x : spec_float) :
  SFleb (S754_finite false M1 (-52)) x = true ->
  SFleb x (S754_finite false M2 (-53)) = false
  /\ SFleb x (S754_finite false M3 (-53)) = false
  /\ SFltb x (S754_finite false M1 (-52)) = false.
Proof.
  destruct x as [s|s| |s m e]; unfold SFleb, SFltb; cbn [SFcompare].
  - discriminate.
  - destruct s; [discriminate | auto].
  - discriminate.
  - destruct s; [discriminate|].
    destruct (Z.compare_spec (-52) e) as [E|L|G].
    + subst e. rewrite Z.compare_refl.
      replace (-52 ?= -53)%Z with Gt by reflexivity.
      pose proof (Pos.compare_antisym M1 m) as A. unfold Pos.compare in A.
      rewrite A. destruct (Pos.compare_cont Eq M1 m); cbn [CompOpp]; auto; discriminate.
    + intros _.
      assert (C1 : (e ?= -53)%Z = Gt) by (apply Z.compare_gt_iff; lia).
      assert (C2 : (e ?= -52)%Z = Gt) by (apply Z.compare_gt_iff; lia).
      rewrite C1, C2. auto.
    + discriminate.
Qed.

(** A ratio of at least 1.0 fails the three tests of the utilization chain. *)
Lemma above_one (u : float) :
  (1 <=? u) = true ->
  (u <=? 0.5) = false /\ (u <=? 0.75) = false /\ (u <? 1) = false.
Proof.
  rewrite !leb_spec, ltb_spec.
  assert (E1 : Prim2SF 1 = S754_finite false 4503599627370496 (-52))
    by (vm_compute; reflexivity).
  assert (E2 : Prim2SF 0.5 = S754_finite false 4503599627370496 (-53))
    by (vm_compute; reflexivity).
  assert (E3 : Prim2SF 0.75 = S754_finite false 6755399441055744 (-53))
    by (vm_compute; reflexivity).
  rewrite E1, E2, E3. apply SF_above.
Qed.

End Binary64Order.

(** ** The credit score on binary64 *)

Lemma utilization_above_one (u : float) :
  fleb (of_decimal 100) u = true ->
  fleb u (of_decimal 50) = false
  /\ fleb u (of_decimal 75) = false
  /\ fltb u (of_decimal 100) = false.
Proof.
  assert (D100 : of_decimal 100 = 1%float) by (vm_compute; reflexivity).
  assert (D50 : of_decimal 50 = 0.5%float) by (vm_compute; reflexivity).
  assert (D75 : of_decimal 75 = 0.75%float) by (vm_compute; reflexivity).
  rewrite D100, D50, D75. exact (above_one u).
Qed.

(** C1. For a customer with at least one loan on record and a positive
    approved limit, when the utilization ratio the code computes (the
    principal of the current loans as a float, divided by the limit) is at
    least 1.0 the score is exactly 0, whatever the payment, loan-count and
    activity factors had added. *)
Theorem full_utilization_zeroes_score (db : list Loan) (today : date) (c : Customer) :
  loans_of db c <> [] ->
  0 < approved_limit c ->
  fleb (of_decimal 100) (utilization_ratio (F:=float) db today c) = true ->
  calculate_credit_score (F:=float) db today c = Ok 0.
Proof.
  intros Hloans Hlimit Hu.
  unfold calculate_credit_score.
  destruct (loans_of db c) as [|l ls]; [congruence|].
  cbv beta iota zeta.
  apply Z.ltb_lt in Hlimit. rewrite Hlimit.
  destruct (utilization_above_one _ Hu) as (U1 & U2 & U3).
  rewrite U1, U2, U3.
  replace (trunc (of_int 0)) with (Ok (A:=Z) 0) by (vm_compute; reflexivity).
  reflexivity.
Qed.

Lemma full_utilization_zeroes_score_witness :
  calculate_credit_score (F:=float) [Sample.ravi_loan] Sample.today Sample.ravi = Ok 0.
Proof.
  apply full_utilization_zeroes_score.
  - discriminate.
  - reflexivity.
  - vm_compute. reflexivity.
Defined.

(** ** binary64: rounding never produces a NaN *)

Section NotNaN.

Variables prec emax : Z.

Lemma shr_1_nonneg (mrs : shr_record) : 0 <= shr_m mrs -> 0 <= shr_m (shr_1 mrs).
Proof.
  destruct mrs as [m r s]. cbn. intros Hm.
  destruct m as [|p|p]; [cbn; lia | | lia].
  destruct p; cbn; lia.
Qed.

Lemma iter_shr_1_nonneg (p : positive) (mrs : shr_record) :
  0 <= shr_m mrs -> 0 <= shr_m (iter_pos shr_1 p mrs).
Proof.
  revert mrs. induction p as [p IH|p IH|]; intros mrs Hm; cbn.
  - apply IH, IH, shr_1_nonneg, Hm.
  - apply IH, IH, Hm.
  - apply shr_1_nonneg, Hm.
Qed.

Lemma shr_fexp_nonneg (m e : Z) (l : location) :
  0 <= m -> 0 <= shr_m (fst (shr_fexp prec emax m e l)).
Proof.
  intros Hm. unfold shr_fexp, shr.
  assert (H0 : 0 <= shr_m (shr_record_of_loc m l)) by (destruct l as [|[]]; exact Hm).
  destruct (fexp prec emax (Zdigits2 m + e) - e) as [|p|p]; cbn [fst]; try exact H0.
  apply iter_shr_1_nonneg, H0.
Qed.

Lemma round_nearest_even_nonneg (m : Z) (l : location) :
  0 <= m -> 0 <= round_nearest_even m l.
Proof.
  intros Hm. destruct l as [|[]]; cbn; try lia.
  destruct (Z.even m); lia.
Qed.

Lemma binary_round_aux_not_nan (s : bool) (m e : Z) (l : location) :
  0 <= m -> binary_round_aux prec emax s m e l <> S754_nan.
Proof.
  intros Hm. unfold binary_round_aux.
  pose proof (shr_fexp_nonneg m e l Hm) as H1.
  destruct (shr_fexp prec emax m e l) as [mrs' e']. cbn [fst] in H1.
  pose proof (shr_fexp_nonneg _ e' loc_Exact
                (round_nearest_even_nonneg _ (loc_of_shr_record mrs') H1)) as H2.
  destruct (shr_fexp prec emax _ e' loc_Exact) as [mrs'' e'']. cbn [fst] in H2.
  destruct (shr_m mrs'') as [|p|p]; [discriminate | | lia].
  destruct (e'' <=? emax - prec); discriminate.
Qed.

Lemma binary_round_not_nan (s : bool) (m : positive) (e : Z) :
  binary_round prec emax s m e <> S754_nan.
Proof.
  unfold binary_round.
  destruct (shl_align m e _) as [mz ez].
  apply binary_round_aux_not_nan. lia.
Qed.

Lemma binary_normalize_not_nan (m e : Z) (sz : bool) :
  binary_normalize prec emax m e sz <> S754_nan.
Proof.
  destruct m; cbn; [discriminate | apply binary_round_not_nan..].
Qed.

Lemma SFldexp_not_nan (x : spec_float) (e : Z) :
  x <> S754_nan -> SFldexp prec emax x e <> S754_nan.
Proof.
  destruct x; cbn; intros Hx; try exact Hx. apply binary_round_not_nan.
Qed.

Lemma SFdiv_finite_not_nan (s1 s2 : bool) (m1 m2 : positive) (e1 e2 : Z) :
  SFdiv prec emax (S754_finite s1 m1 e1) (S754_finite s2 m2 e2) <> S754_nan.
Proof.
  cbn [SFdiv]. unfold SFdiv_core_binary.
  set (sh := _ - _ - _).
  set (m' := match sh with Z0 => Zpos m1 | Zpos _ => Z.shiftl (Zpos m1) sh | Zneg _ => 0 end).
  assert (Hm' : 0 <= m').
  { subst m'. destruct sh; try lia. apply Z.shiftl_nonneg. lia. }
  pose proof (Z_div_mod m' (Zpos m2) ltac:(lia)) as Hq.
  destruct (Z.div_eucl m' (Zpos m2)) as [q r].
  apply binary_round_aux_not_nan.
  destruct Hq as [Hq Hr]. nia.
Qed.

End NotNaN.

Lemma SF2Prim_not_nan (y : spec_float) :
  y <> S754_nan -> Prim2SF (SF2Prim y) <> S754_nan.
Proof.
  destruct y as [s|s| |s m e]; intros Hy.
  - destruct s; vm_compute; discriminate.
  - destruct s; vm_compute; discriminate.
  - congruence.
  - assert (Hf : Prim2SF (Z.ldexp (of_uint63 (Uint63.of_Z (Zpos m))) e) <> S754_nan).
    { rewrite Z_ldexp_spec. apply SFldexp_not_nan.
      rewrite of_uint63_spec. apply binary_normalize_not_nan. }
    unfold SF2Prim. destruct s; [|exact Hf].
    rewrite opp_spec.
    destruct (Prim2SF (Z.ldexp (of_uint63 (Uint63.of_Z (Zpos m))) e));
      cbn; congruence.
Qed.

Lemma of_decimal_not_nan (h : Z) : Prim2SF (of_decimal (F:=float) h) <> S754_nan.
Proof.
  unfold of_decimal. cbn [of_ratio binary64]. unfold B64.of_ratio.
  apply SF2Prim_not_nan. unfold B64.SF_of_ratio.
  destruct h as [|p|p]; cbn [B64.SF_of_Z].
  - cbn. discriminate.
  - apply SFdiv_finite_not_nan.
  - apply SFdiv_finite_not_nan.
Qed.

(** C5. Whatever the decision returns (any of the three rejections or the
    approval), the rate it carries is, as a float, at least the float of the
    requested rate: the requested rate is passed through or raised to the
    tier's floor, never lowered. *)
Theorem rate_never_lowered (db : list Loan) (today : date) (score : Z) (c : Customer)
    (amount rate n : Z) (a : bool) (r : num float) (m : string) :
  get_approval_decision db today score c amount rate n = Ok (a, r, m) ->
  fleb (of_decimal rate) (to_float r) = true.
Proof.
  intros Hdec.
  destruct (decision_returns _ _ _ _ _ _ _ _ _ _ Hdec)
    as [(_ & -> & _) | (floor & emi & _ & -> & _)]; cbn [to_float].
  - apply leb_refl, of_decimal_not_nan.
  - unfold py_max.
    destruct (fltb (of_decimal rate) floor) eqn:E.
    + apply ltb_leb. exact E.
    + apply leb_refl, of_decimal_not_nan.
Qed.

Lemma rate_never_lowered_witness :
  get_approval_decision (F:=float) [] Sample.today 50 Sample.asha 20000000 800 24
  = Ok (true, Flt 12%float, APPROVED)
  /\ fleb (of_decimal 800) (to_float (Flt 12%float)) = true.
Proof.
  assert (Hdec : get_approval_decision (F:=float) [] Sample.today 50 Sample.asha
                   20000000 800 24 = Ok (true, Flt 12%float, APPROVED))
    by (vm_compute; reflexivity).
  split; [exact Hdec|].
  exact (rate_never_lowered _ _ _ _ _ _ _ _ _ _ Hdec).
Defined.

(** ** Witnesses of the policy theorems *)

Lemma limit_exceeded_rejects_witness :
  100 * approved_limit Sample.asha
  < or_zero (Sum loan_amount (current Sample.today (loans_of [Sample.asha_loan] Sample.asha)))
    + 20000000
  /\ get_approval_decision (F:=float) [Sample.asha_loan] Sample.today 5 Sample.asha
       20000000 800 0
     = Ok (false, Dec 800, LIMIT_EXCEEDED).
Proof.
  assert (Hlim : 100 * approved_limit Sample.asha
                 < or_zero (Sum loan_amount
                              (current Sample.today (loans_of [Sample.asha_loan] Sample.asha)))
                   + 20000000) by (vm_compute; reflexivity).
  split; [exact Hlim|].
  exact (limit_exceeded_rejects (F:=float) _ _ _ 5 20000000 800 0 Hlim).
Defined.

Lemma score_tier_boundaries_witness :
  get_approval_decision (F:=float) [] Sample.today 51 Sample.asha 20000000 800 24
  = Ok (true, Flt 10%float, APPROVED)
  /\ get_approval_decision (F:=float) [] Sample.today 50 Sample.asha 20000000 800 24
     = Ok (true, Flt 12%float, APPROVED)
  /\ get_approval_decision (F:=float) [] Sample.today 10 Sample.asha 20000000 800 0
     = Ok (false, Dec 800, SCORE_TOO_LOW).
Proof.
  assert (Hlim : or_zero (Sum loan_amount (current Sample.today (loans_of [] Sample.asha)))
                 + 20000000 <= 100 * approved_limit Sample.asha)
    by (vm_compute; discriminate).
  destruct (score_tier_boundaries (F:=float) [] Sample.today Sample.asha
              20000000 800 24 Hlim) as (H51 & H50 & _).
  destruct (score_tier_boundaries (F:=float) [] Sample.today Sample.asha
              20000000 800 0 Hlim) as (_ & _ & _ & _ & _ & _ & _ & _ & Hlow).
  split; [rewrite H51; vm_compute; reflexivity|].
  split; [rewrite H50; vm_compute; reflexivity|].
  apply Hlow. lia.
Defined.

Lemma affordability_decides_witness :
  calculate_emi (F:=float) (Dec 20000000)
    (Flt (py_max (of_decimal 800) (of_decimal 1200))) 24 = Ok (of_decimal 941469)
  /\ get_approval_decision (F:=float) [] Sample.today 50 Sample.asha 20000000 800 24
     = Ok (true, Flt (py_max (of_decimal 800) (of_decimal 1200)), APPROVED).
Proof.
  assert (Hemi : calculate_emi (F:=float) (Dec 20000000)
                   (Flt (py_max (of_decimal 800) (of_decimal 1200))) 24
                 = Ok (of_decimal 941469)) by (vm_compute; reflexivity).
  split; [exact Hemi|].
  destruct (affordability_decides (F:=float) [] Sample.today Sample.asha
              50 20000000 800 24 (of_decimal 941469))
    as (floor & Hfloor & Hdec).
  - vm_compute. discriminate.
  - lia.
  - assert (Hf : floor = of_decimal 1200).
    { assert (H50 : min_interest (F:=float) 50 = Some (of_decimal 1200)) by reflexivity.
      congruence. }
    subst floor. apply (proj2 (Hdec Hemi)).
    vm_compute. reflexivity.
Defined.

Lemma emi_zero_rate_is_quotient_witness :
  calculate_emi (F:=float) (Dec 10000) (Dec 0) 3
  = Ok (fdiv (of_decimal 10000) (of_int 3)).
Proof.
  rewrite (emi_zero_rate_is_quotient (F:=float) (Dec 10000) (Dec 0) 3).
  - reflexivity.
  - reflexivity.
  - lia.
Defined.

(** Against C6: a tenure of [2 ^ 1024] is positive, and the call raises. *)
Lemma emi_zero_rate_overflow :
  0 < 2 ^ 1024
  /\ calculate_emi (F:=float) (Dec 10000) (Dec 0) (2 ^ 1024) = Raise OverflowError.
Proof. split; vm_compute; reflexivity. Qed.


(** ** Request terms on binary64 *)





(** ** Rounding to the nearest integer is monotone *)

Lemma round_half_even_spec (n d : Z) :
  0 < d ->
  let R := round_half_even n d in
  (2 * (d * R) - d < 2 * n < 2 * (d * R) + d)
  \/ (2 * n = 2 * (d * R) - d /\ Z.even R = true)
  \/ (2 * n = 2 * (d * R) + d /\ Z.even R = true).
Proof.
  intros Hd. unfold round_half_even.
  pose proof (Z.div_mod n d ltac:(lia)) as Hn.
  pose proof (Z.mod_pos_bound n d Hd) as Hr.
  set (q := n / d) in *. set (r := n mod d) in *.
  destruct (Z.compare_spec (2 * r) d) as [E|L|G].
  - destruct (Z.even q) eqn:Ev.
    + right; right. split; [lia | exact Ev].
    + right; left. split; [lia|].
      rewrite Z.even_add, Ev. reflexivity.
  - left. lia.
  - left. lia.
Qed.

Lemma round_half_even_mono (a b c d : Z) :
  0 < b -> 0 < d -> a * d <= c * b ->
  round_half_even a b <= round_half_even c d.
Proof.
  intros Hb Hd Hle.
  pose proof (round_half_even_spec a b Hb) as H1.
  pose proof (round_half_even_spec c d Hd) as H2.
  cbv zeta in H1, H2.
  set (R1 := round_half_even a b) in *. set (R2 := round_half_even c d) in *.
  destruct (Z_le_gt_dec R1 R2) as [L|G]; [exact L | exfalso].
  assert (HbR : b * (R2 + 1) <= b * R1) by nia.
  (* a/b >= R2 + 1/2 and c/d <= R2 + 1/2 *)
  assert (Ha : 2 * (b * R2) + b <= 2 * a) by lia.
  assert (Hc : 2 * c <= 2 * (d * R2) + d) by lia.
  assert (Had : (2 * (b * R2) + b) * d <= 2 * a * d) by nia.
  assert (Hcb : 2 * c * b <= (2 * (d * R2) + d) * b) by nia.
  assert (Ea : 2 * a * d = (2 * (b * R2) + b) * d) by nia.
  assert (Ec : 2 * c * b = (2 * (d * R2) + d) * b) by nia.
  assert (Ea' : 2 * a = 2 * (b * R2) + b) by nia.
  assert (Ec' : 2 * c = 2 * (d * R2) + d) by nia.
  assert (ER : R1 = R2 + 1) by nia.
  assert (Ev1 : Z.even R1 = true) by (destruct H1 as [H1|[[_ E]|[_ E]]]; [nia | exact E | exact E]).
  assert (Ev2 : Z.even R2 = true) by (destruct H2 as [H2|[[_ E]|[_ E]]]; [nia | exact E | exact E]).
  rewrite ER, Z.even_add, Ev2 in Ev1. discriminate.
Qed.

(** ** binary64: what a right shift keeps of a number *)

Lemma shr_1_inv (mrs : shr_record) (N D : Z) :
  shr_inv mrs N D -> shr_inv (shr_1 mrs) N (2 * D).
Proof.
  intros (HD & HN & Hm & Hr & Hs).
  pose proof (Z.div_mod N D ltac:(lia)) as E.
  pose proof (Z.mod_pos_bound N D HD) as B.
  pose proof (Z.div_pos N D HN HD) as Q.
  set (q := N / D) in *. set (f := N mod D) in *.
  assert (Hrs : orb (shr_r mrs) (shr_s mrs) = negb (f =? 0)).
  { rewrite Hr, Hs.
    destruct (Z.leb_spec D (2 * f)) as [L|L]; cbn [orb].
    - symmetry. apply negb_true_iff, Z.eqb_neq. lia.
    - rewrite Z.mod_small by lia.
      destruct (Z.eqb_spec (2 * f) 0), (Z.eqb_spec f 0); try reflexivity; lia. }
  assert (Hq2 : N / (2 * D) = q / 2).
  { rewrite Z.mul_comm, <- Z.div_div by lia. reflexivity. }
  assert (Hf2 : N mod (2 * D) = (q mod 2) * D + f).
  { pose proof (Z.div_mod q 2 ltac:(lia)) as E2.
    pose proof (Z.mod_pos_bound q 2 ltac:(lia)) as B2.
    symmetry. apply Z.mod_unique_pos with (q := q / 2); nia. }
  pose proof (Z.div_mod q 2 ltac:(lia)) as E2.
  pose proof (Z.mod_pos_bound q 2 ltac:(lia)) as B2.
  assert (Hnew : forall (m' : Z) (r' : bool),
             m' = q / 2 -> r' = (q mod 2 =? 1) ->
             shr_inv {| shr_m := m'; shr_r := r'; shr_s := orb (shr_r mrs) (shr_s mrs) |}
                     N (2 * D)).
  { intros m' r' -> ->. unfold shr_inv. cbn [shr_m shr_r shr_s].
    rewrite Hq2, Hf2, Hrs.
    split; [lia|]. split; [exact HN|]. split; [reflexivity|]. split.
    - destruct (Z.eqb_spec (q mod 2) 1) as [O|O]; symmetry.
      + apply Z.leb_le. nia.
      + apply Z.leb_gt. assert (q mod 2 = 0) by lia. nia.
    - f_equal.
      assert (Hm2 : (2 * (q mod 2 * D + f)) mod (2 * D) = 2 * f).
      { symmetry. apply Z.mod_unique_pos with (q := q mod 2); nia. }
      rewrite Hm2.
      destruct (Z.eqb_spec f 0), (Z.eqb_spec (2 * f) 0); try reflexivity; lia. }
  destruct mrs as [m r s]. cbn [shr_m shr_r shr_s] in *.
  unfold shr_1.
  destruct m as [|p|p]; [|destruct p as [p|p|]|lia].
  - apply Hnew; rewrite <- Hm; reflexivity.
  - apply Hnew; rewrite <- Hm.
    + rewrite Pos2Z.inj_xI. apply Z.div_unique with (r := 1); lia.
    + rewrite Pos2Z.inj_xI. symmetry. apply Z.eqb_eq.
      symmetry. apply Z.mod_unique with (q := Zpos p); lia.
  - apply Hnew; rewrite <- Hm.
    + rewrite Pos2Z.inj_xO. apply Z.div_unique with (r := 0); lia.
    + rewrite Pos2Z.inj_xO. symmetry. apply Z.eqb_neq.
      rewrite Z.mul_comm, Z.mod_mul; lia.
  - apply Hnew; rewrite <- Hm; reflexivity.
Qed.

Lemma pow2_xI (p : positive) : 2 ^ Zpos p~1 = 2 * (2 ^ Zpos p * 2 ^ Zpos p).
Proof.
  replace (Zpos p~1) with (1 + Zpos p + Zpos p) by lia.
  rewrite !Z.pow_add_r by lia. rewrite Z.pow_1_r. ring.
Qed.

Lemma pow2_xO (p : positive) : 2 ^ Zpos p~0 = 2 ^ Zpos p * 2 ^ Zpos p.
Proof.
  replace (Zpos p~0) with (Zpos p + Zpos p) by lia.
  rewrite Z.pow_add_r by lia. reflexivity.
Qed.

Lemma iter_shr_inv (p : positive) :
  forall (mrs : shr_record) (N D : Z),
    shr_inv mrs N D -> shr_inv (iter_pos shr_1 p mrs) N (D * 2 ^ Zpos p).
Proof.
  induction p as [p IH|p IH|]; intros mrs N D H; cbn [iter_pos].
  - apply shr_1_inv in H. apply IH, IH in H.
    replace (D * 2 ^ Zpos p~1) with (2 * D * 2 ^ Zpos p * 2 ^ Zpos p); [exact H|].
    rewrite pow2_xI. ring.
  - apply IH, IH in H.
    replace (D * 2 ^ Zpos p~0) with (D * 2 ^ Zpos p * 2 ^ Zpos p); [exact H|].
    rewrite pow2_xO. ring.
  - apply shr_1_inv in H. rewrite Z.pow_1_r, Z.mul_comm. exact H.
Qed.

Lemma loc_of_inv (N D : Z) :
  0 < D -> 0 <= N -> shr_inv (shr_record_of_loc (N / D) (loc_of N D)) N D.
Proof.
  intros HD HN. unfold loc_of, shr_inv.
  pose proof (Z.mod_pos_bound N D HD) as B.
  set (f := N mod D) in *.
  split; [exact HD|]. split; [exact HN|].
  destruct (Z.eqb_spec f 0) as [Z0|NZ].
  - cbn [shr_record_of_loc shr_m shr_r shr_s]. rewrite Z0, Z.mul_0_r, Z.mod_0_l by lia.
    repeat split. symmetry. apply Z.leb_gt. lia.
  - destruct (Z.compare_spec (2 * f) D) as [E|L|G];
      cbn [shr_record_of_loc shr_m shr_r shr_s]; repeat split; symmetry.
    + apply Z.leb_le. lia.
    + rewrite E, Z.mod_same by lia. reflexivity.
    + apply Z.leb_gt. lia.
    + rewrite Z.mod_small by lia. apply negb_true_iff, Z.eqb_neq. lia.
    + apply Z.leb_le. lia.
    + apply negb_true_iff, Z.eqb_neq.
      replace (2 * f) with (2 * f - D + 1 * D) by ring.
      rewrite Z.mod_add, Z.mod_small by lia. lia.
Qed.

Lemma round_inv (mrs : shr_record) (N D : Z) :
  shr_inv mrs N D ->
  round_nearest_even (shr_m mrs) (loc_of_shr_record mrs) = round_half_even N D.
Proof.
  intros (HD & HN & Hm & Hr & Hs).
  pose proof (Z.mod_pos_bound N D HD) as B.
  unfold round_half_even. set (f := N mod D) in *.
  destruct mrs as [m r s]. cbn [shr_m shr_r shr_s] in *. subst m.
  destruct r, s; cbn [loc_of_shr_record round_nearest_even];
    symmetry in Hr, Hs;
    [apply Z.leb_le in Hr | apply Z.leb_le in Hr | apply Z.leb_gt in Hr | apply Z.leb_gt in Hr];
    [apply negb_true_iff, Z.eqb_neq in Hs | apply negb_false_iff, Z.eqb_eq in Hs
     | apply negb_true_iff, Z.eqb_neq in Hs | apply negb_false_iff, Z.eqb_eq in Hs].
  - assert (G : D < 2 * f).
    { destruct (Z.eq_dec (2 * f) D) as [E|NE]; [|lia].
      rewrite E, Z.mod_same in Hs by lia. lia. }
    apply Z.compare_gt_iff in G. rewrite G. reflexivity.
  - assert (E : 2 * f = D).
    { replace (2 * f) with (2 * f - D + 1 * D) in Hs by ring.
      rewrite Z.mod_add, Z.mod_small in Hs by lia. lia. }
    apply Z.compare_eq_iff in E. rewrite E. reflexivity.
  - apply Z.compare_lt_iff in Hr. rewrite Hr. reflexivity.
  - apply Z.compare_lt_iff in Hr. rewrite Hr. reflexivity.
Qed.

Lemma new_location_loc_of (D r : Z) :
  0 < D -> 0 <= r < D ->
  new_location D r = if r =? 0 then loc_Exact else loc_Inexact (2 * r ?= D).
Proof.
  intros HD Hr. unfold new_location, new_location_even, new_location_odd.
  destruct (Z.even D) eqn:Ev; [reflexivity|].
  destruct (r =? 0); [reflexivity|]. f_equal.
  assert (Hodd : Z.odd D = true) by (rewrite <- Z.negb_even, Ev; reflexivity).
  apply Z.odd_spec in Hodd. destruct Hodd as [k Hk].
  destruct (Z.compare_spec (2 * r + 1) D) as [E|L|G];
    symmetry; [apply Z.compare_lt_iff | apply Z.compare_lt_iff | apply Z.compare_gt_iff]; lia.
Qed.

(** ** binary64: the result of [binary_round_aux] *)

Lemma digits2_pos_size (p : positive) : digits2_pos p = Pos.size p.
Proof. induction p as [p IH|p IH|]; cbn; congruence. Qed.

Lemma Zdigits2_log2 (p : positive) : Zdigits2 (Zpos p) = Z.log2 (Zpos p) + 1.
Proof.
  cbn [Zdigits2]. rewrite digits2_pos_size.
  destruct p as [p|p|]; cbn [Pos.size Z.log2]; lia.
Qed.

Lemma Zdigits2_bounds (m : Z) :
  0 < m -> 2 ^ (Zdigits2 m - 1) <= m < 2 ^ Zdigits2 m.
Proof.
  intros Hm. destruct m as [|p|p]; try lia.
  rewrite Zdigits2_log2.
  replace (Z.log2 (Zpos p) + 1 - 1) with (Z.log2 (Zpos p)) by ring.
  replace (Z.log2 (Zpos p) + 1) with (Z.succ (Z.log2 (Zpos p))) by ring.
  apply Z.log2_spec. lia.
Qed.

Lemma Zdigits2_unique (m k : Z) :
  0 < k -> 2 ^ (k - 1) <= m < 2 ^ k -> Zdigits2 m = k.
Proof.
  intros Hk Hm.
  assert (Hpos : 0 < m).
  { assert (0 < 2 ^ (k - 1)) by (apply Z.pow_pos_nonneg; lia). lia. }
  destruct m as [|p|p]; try lia.
  rewrite Zdigits2_log2.
  assert (E : Z.log2 (Zpos p) = k - 1).
  { apply Z.log2_unique; [lia|]. replace (Z.succ (k - 1)) with k by lia. exact Hm. }
  lia.
Qed.

Lemma Zdigits2_nonneg (m : Z) : 0 <= Zdigits2 m.
Proof. destruct m; cbn; lia. Qed.

Lemma Zdigits2_pos (m : Z) : 0 < m -> 1 <= Zdigits2 m.
Proof. destruct m; cbn; lia. Qed.

Lemma Zdigits2_le (m k : Z) : 0 <= k -> 0 <= m < 2 ^ k -> Zdigits2 m <= k.
Proof.
  intros Hk Hm. destruct (Z.eq_dec m 0) as [->|NZ]; [cbn; exact Hk|].
  pose proof (Zdigits2_bounds m ltac:(lia)) as B.
  destruct (Z_le_gt_dec (Zdigits2 m) k) as [L|G]; [exact L|exfalso].
  assert (2 ^ k <= 2 ^ (Zdigits2 m - 1)) by (apply Z.pow_le_mono_r; lia).
  lia.
Qed.

Lemma round_half_even_bounds (n d : Z) :
  0 < d -> n / d <= round_half_even n d <= n / d + 1.
Proof.
  intros Hd. unfold round_half_even.
  destruct (2 * (n mod d) ?= d); [destruct (Z.even (n / d))|..]; lia.
Qed.

Section Rounding.

Variables prec emax : Z.
Hypothesis Hprec : 0 < prec.

Let emin := SpecFloat.emin prec emax.
Let fexp := SpecFloat.fexp prec emax.

Lemma fexp_eq (k : Z) : fexp k = Z.max (k - prec) emin.
Proof. reflexivity. Qed.

Lemma fexp_ge_emin (k : Z) : emin <= fexp k.
Proof. rewrite fexp_eq. lia. Qed.

Lemma shr_nonpos (mrs : shr_record) (e n : Z) : n <= 0 -> shr mrs e n = (mrs, e).
Proof. intros Hn. destruct n; try reflexivity. lia. Qed.

(** The first shift of [binary_round_aux]. *)
Lemma shr_fexp_inv (N D e : Z) :
  0 < D -> 0 <= N ->
  let E := fexp (Zdigits2 (N / D) + e) in
  e <= E ->
  exists mrs,
    shr_fexp prec emax (N / D) e (loc_of N D) = (mrs, E)
    /\ shr_inv mrs N (D * 2 ^ (E - e)).
Proof.
  intros HD HN E HE. unfold shr_fexp. fold fexp. fold E.
  pose proof (loc_of_inv N D HD HN) as Hinv.
  destruct (E - e) as [|p|p] eqn:En; try lia.
  - exists (shr_record_of_loc (N / D) (loc_of N D)). split.
    + cbn [shr]. f_equal. lia.
    + rewrite Z.pow_0_r, Z.mul_1_r. exact Hinv.
  - exists (iter_pos shr_1 p (shr_record_of_loc (N / D) (loc_of N D))). split.
    + cbn [shr]. f_equal. lia.
    + apply iter_shr_inv. exact Hinv.
Qed.

(** What [binary_round_aux] returns for the number [N / D * 2 ^ e], given with
    enough digits. *)
Lemma binary_round_aux_spec (s : bool) (N D e : Z) :
  0 < D -> 0 <= N ->
  let E := fexp (Zdigits2 (N / D) + e) in
  e <= E ->
  let M := round_half_even N (D * 2 ^ (E - e)) in
  binary_round_aux prec emax s (N / D) e (loc_of N D) = rnd prec emax s M E
  /\ 0 <= M <= 2 ^ prec
  /\ (emin < E -> 2 ^ (prec - 1) <= M).
Proof.
  intros HD HN E HE M.
  assert (Hpow : 0 < 2 ^ (E - e)) by (apply Z.pow_pos_nonneg; lia).
  assert (HD' : 0 < D * 2 ^ (E - e)) by nia.
  pose proof (round_half_even_bounds N (D * 2 ^ (E - e)) HD') as HM. fold M in HM.
  assert (Hdiv : N / (D * 2 ^ (E - e)) = N / D / 2 ^ (E - e))
    by (rewrite Z.div_div by lia; reflexivity).
  rewrite Hdiv in HM.
  set (m := N / D) in *.
  assert (Hm0 : 0 <= m) by (apply Z.div_pos; lia).
  set (dg := Zdigits2 m) in *.
  assert (Hdg : 0 <= dg) by apply Zdigits2_nonneg.
  assert (HfE : E = Z.max (dg + e - prec) emin) by reflexivity.
  assert (HEdg : dg + e - prec <= E /\ emin <= E) by lia.
  assert (Hm2 : m < 2 ^ dg \/ m = 0).
  { destruct (Z.eq_dec m 0) as [Z0|NZ]; [right; exact Z0|left].
    apply Zdigits2_bounds. lia. }
  assert (Hup : m / 2 ^ (E - e) < 2 ^ prec).
  { apply Z.div_lt_upper_bound; [exact Hpow|].
    rewrite <- Z.pow_add_r by lia.
    destruct Hm2 as [Hm2| ->]; [|apply Z.pow_pos_nonneg; lia].
    assert (2 ^ dg <= 2 ^ (E - e + prec)) by (apply Z.pow_le_mono_r; lia).
    lia. }
  assert (Hq0 : 0 <= m / 2 ^ (E - e)) by (apply Z.div_pos; lia).
  assert (Hlow : emin < E -> 2 ^ (prec - 1) <= m / 2 ^ (E - e)).
  { intros HEm.
    assert (EE : E = dg + e - prec) by lia.
    assert (NZ : 0 < m).
    { destruct (Z.eq_dec m 0) as [Z0|NZ]; [|lia].
      exfalso. unfold dg in EE. rewrite Z0 in EE. cbn in EE. lia. }
    pose proof (Zdigits2_bounds m NZ) as B. fold dg in B.
    apply Z.div_le_lower_bound; [exact Hpow|].
    rewrite <- Z.pow_add_r by lia.
    replace (E - e + (prec - 1)) with (dg - 1) by lia. lia. }
  split; [|split; [lia | intros HEm; specialize (Hlow HEm); lia]].
  unfold binary_round_aux.
  destruct (shr_fexp_inv N D e HD HN HE) as (mrs & Hshr & Hinv).
  fold m in Hshr. rewrite Hshr.
  rewrite (round_inv mrs _ _ Hinv).
  unfold shr_fexp. fold fexp. cbn [shr_record_of_loc].
  change (round_half_even N (D * 2 ^ (fexp (Zdigits2 (N / D) + e) - e))) with M.
  change (fexp (Zdigits2 m + e)) with E.
  unfold rnd.
  destruct (Z.eqb_spec M 0) as [Z0|NZ].
  - rewrite Z0. cbn [Zdigits2].
    rewrite shr_nonpos; [reflexivity|].
    rewrite fexp_eq. lia.
  - destruct (Z.ltb_spec M (2 ^ prec)) as [L|G].
    + assert (HdM : Zdigits2 M <= prec) by (apply Zdigits2_le; lia).
      rewrite shr_nonpos.
      * cbn [shr_m]. destruct M as [|p|p]; try lia. reflexivity.
      * rewrite fexp_eq. lia.
    + assert (EM : M = 2 ^ prec) by lia.
      assert (HdM : Zdigits2 M = prec + 1).
      { apply Zdigits2_unique; [lia|].
        replace (prec + 1 - 1) with prec by ring. rewrite EM.
        split; [lia|]. apply Z.pow_lt_mono_r; lia. }
      rewrite HdM.
      replace (fexp (prec + 1 + E) - E) with 1
        by (rewrite fexp_eq; lia).
      cbn [shr iter_pos].
      assert (Hinv1 : shr_inv {| shr_m := M; shr_r := false; shr_s := false |} M 1).
      { unfold shr_inv. cbn [shr_m shr_r shr_s].
        rewrite Z.div_1_r, Z.mod_1_r. cbn. repeat split; lia. }
      apply shr_1_inv in Hinv1. destruct Hinv1 as (_ & _ & Hm1 & _).
      rewrite Hm1.
      replace (M / (2 * 1)) with (2 ^ (prec - 1)).
      * assert (0 < 2 ^ (prec - 1)) by (apply Z.pow_pos_nonneg; lia).
        destruct (2 ^ (prec - 1)) as [|p|p]; try lia. reflexivity.
      * rewrite EM. replace prec with (1 + (prec - 1)) at 2 by ring.
        rewrite Z.pow_add_r by lia. rewrite Z.pow_1_r.
        rewrite Z.mul_1_r, Z.mul_comm, Z.div_mul by lia. reflexivity.
Qed.

End Rounding.

(** ** binary64: rounding keeps the order *)

Section Order.

Variables prec emax : Z.
Hypothesis Hprec : 0 < prec.

Lemma pos_compare_cont_le (p q : positive) :
  (p <= q)%positive -> Pos.compare_cont Eq p q <> Gt.
Proof. intros H. exact H. Qed.

(** The order of two results of [rnd] with a positive sign. *)
Lemma rnd_le (M1 E1 M2 E2 : Z) :
  0 <= M1 <= 2 ^ prec -> 0 <= M2 <= 2 ^ prec ->
  (E1 = E2 /\ M1 <= M2) \/ (E1 < E2 /\ 2 ^ (prec - 1) <= M2) ->
  SFleb (rnd prec emax false M1 E1) (rnd prec emax false M2 E2) = true.
Proof.
  intros H1 H2 Hle.
  assert (Hhalf : 0 < 2 ^ (prec - 1)) by (apply Z.pow_pos_nonneg; lia).
  assert (Hdbl : 2 ^ prec = 2 * 2 ^ (prec - 1)).
  { replace prec with (1 + (prec - 1)) at 1 by ring.
    rewrite Z.pow_add_r by lia. rewrite Z.pow_1_r. reflexivity. }
  unfold rnd.
  destruct (Z.eqb_spec M1 0) as [Z1|NZ1].
  { (* zero on the left *)
    destruct (M2 =? 0); [reflexivity|].
    destruct (M2 <? 2 ^ prec); [destruct (E2 <=? emax - prec)|destruct (E2 + 1 <=? emax - prec)];
      reflexivity. }
  destruct (Z.eqb_spec M2 0) as [Z2|NZ2]; [exfalso; lia|].
  unfold SFleb.
  destruct (Z.ltb_spec M1 (2 ^ prec)) as [L1|G1];
    destruct (Z.ltb_spec M2 (2 ^ prec)) as [L2|G2].
  - (* both below 2^prec *)
    destruct (Z.leb_spec E1 (emax - prec)) as [B1|B1];
      destruct (Z.leb_spec E2 (emax - prec)) as [B2|B2]; cbn [SFcompare]; try reflexivity.
    + destruct Hle as [[-> Hm]|[He _]].
      * rewrite Z.compare_refl.
        assert (Hp : (Z.to_pos M1 <= Z.to_pos M2)%positive)
          by lia.
        destruct (Pos.compare_cont Eq (Z.to_pos M1) (Z.to_pos M2)) eqn:C;
          [reflexivity | reflexivity | contradiction].
      * apply Z.compare_lt_iff in He. rewrite He. reflexivity.
    + exfalso. lia.
  - (* the right one is 2^prec *)
    destruct (Z.leb_spec E1 (emax - prec)) as [B1|B1];
      destruct (Z.leb_spec (E2 + 1) (emax - prec)) as [B2|B2]; cbn [SFcompare]; try reflexivity.
    + assert (He : E1 < E2 + 1) by lia.
      apply Z.compare_lt_iff in He. rewrite He. reflexivity.
    + exfalso. lia.
  - (* the left one is 2^prec *)
    assert (He : E1 < E2 /\ 2 ^ (prec - 1) <= M2) by (destruct Hle as [[? ?]|?]; [lia | assumption]).
    destruct He as [He Hm].
    destruct (Z.leb_spec (E1 + 1) (emax - prec)) as [B1|B1];
      destruct (Z.leb_spec E2 (emax - prec)) as [B2|B2]; cbn [SFcompare]; try reflexivity.
    + destruct (Z.compare_spec (E1 + 1) E2) as [C|C|C]; try reflexivity; [|exfalso; lia].
      assert (Hp : (Z.to_pos (2 ^ (prec - 1)) <= Z.to_pos M2)%positive)
        by lia.
      destruct (Pos.compare_cont Eq (Z.to_pos (2 ^ (prec - 1))) (Z.to_pos M2)) eqn:C';
        [reflexivity | reflexivity | contradiction].
    + exfalso. lia.
  - (* both are 2^prec *)
    destruct (Z.leb_spec (E1 + 1) (emax - prec)) as [B1|B1];
      destruct (Z.leb_spec (E2 + 1) (emax - prec)) as [B2|B2]; cbn [SFcompare]; try reflexivity.
    + destruct (Z.compare_spec (E1 + 1) (E2 + 1)) as [C|C|C]; try reflexivity.
      * pose proof (Pos.compare_refl (Z.to_pos (2 ^ (prec - 1)))) as R.
        unfold Pos.compare in R. rewrite R. reflexivity.
      * exfalso. lia.
    + exfalso. lia.
Qed.

(** A result of [rnd] is a canonical float. *)
Lemma rnd_valid (s : bool) (M E : Z) :
  0 <= M <= 2 ^ prec -> (SpecFloat.emin prec emax) <= E -> ((SpecFloat.emin prec emax) < E -> 2 ^ (prec - 1) <= M) ->
  SpecFloat.valid_binary prec emax (rnd prec emax s M E) = true.
Proof.
  intros HM HE Hnorm.
  assert (Hhalf : 0 < 2 ^ (prec - 1)) by (apply Z.pow_pos_nonneg; lia).
  unfold rnd.
  destruct (Z.eqb_spec M 0) as [Z0|NZ]; [reflexivity|].
  destruct (Z.ltb_spec M (2 ^ prec)) as [L|G].
  - destruct (Z.leb_spec E (emax - prec)) as [B|B]; [|reflexivity].
    cbn [SpecFloat.valid_binary]. unfold bounded, canonical_mantissa.
    apply andb_true_iff. split; [|apply Z.leb_le; exact B].
    apply Z.eqb_eq.
    change (Zpos (digits2_pos (Z.to_pos M))) with (Zdigits2 (Zpos (Z.to_pos M))).
    rewrite Z2Pos.id by lia.
    rewrite fexp_eq.
    assert (Hd : Zdigits2 M <= prec) by (apply Zdigits2_le; lia).
    destruct (Z.eq_dec E (SpecFloat.emin prec emax)) as [Ee|Ne]; [lia|].
    assert (Hd' : Zdigits2 M = prec).
    { apply Zdigits2_unique; [lia|]. split; [apply Hnorm; lia | exact L]. }
    lia.
  - destruct (Z.leb_spec (E + 1) (emax - prec)) as [B|B]; [|reflexivity].
    cbn [SpecFloat.valid_binary]. unfold bounded, canonical_mantissa.
    apply andb_true_iff. split; [|apply Z.leb_le; exact B].
    apply Z.eqb_eq.
    change (Zpos (digits2_pos (Z.to_pos (2 ^ (prec - 1)))))
      with (Zdigits2 (Zpos (Z.to_pos (2 ^ (prec - 1))))).
    rewrite Z2Pos.id by lia.
    rewrite fexp_eq.
    assert (Hd' : Zdigits2 (2 ^ (prec - 1)) = prec).
    { apply Zdigits2_unique; [lia|]. split; [lia|]. apply Z.pow_lt_mono_r; lia. }
    lia.
Qed.

(** The sign given to [binary_round_aux] is only carried along. *)
Lemma rnd_opp (M E : Z) : rnd prec emax true M E = SFopp (rnd prec emax false M E).
Proof.
  unfold rnd.
  destruct (M =? 0); [reflexivity|].
  destruct (M <? 2 ^ prec);
    [destruct (E <=? emax - prec) | destruct (E + 1 <=? emax - prec)]; reflexivity.
Qed.

(** Two numbers [N1 / D1 * 2 ^ e1 <= N2 / D2 * 2 ^ e2], each given with
    enough digits, are rounded in that order. *)
Lemma binary_round_aux_mono (N1 D1 e1 N2 D2 e2 k : Z) :
  0 < D1 -> 0 <= N1 -> 0 < D2 -> 0 <= N2 ->
  e1 <= (SpecFloat.fexp prec emax) (Zdigits2 (N1 / D1) + e1) ->
  e2 <= (SpecFloat.fexp prec emax) (Zdigits2 (N2 / D2) + e2) ->
  k <= e1 -> k <= e2 ->
  N1 * D2 * 2 ^ (e1 - k) <= N2 * D1 * 2 ^ (e2 - k) ->
  SFleb (binary_round_aux prec emax false (N1 / D1) e1 (loc_of N1 D1))
        (binary_round_aux prec emax false (N2 / D2) e2 (loc_of N2 D2)) = true.
Proof.
  intros HD1 HN1 HD2 HN2 HE1 HE2 Hk1 Hk2 Hle.
  destruct (binary_round_aux_spec prec emax Hprec false N1 D1 e1 HD1 HN1 HE1)
    as (-> & HM1 & _).
  destruct (binary_round_aux_spec prec emax Hprec false N2 D2 e2 HD2 HN2 HE2)
    as (-> & HM2 & Hnorm2).
  set (m1 := N1 / D1) in *. set (m2 := N2 / D2) in *.
  set (E1 := (SpecFloat.fexp prec emax) (Zdigits2 m1 + e1)) in *.
  set (E2 := (SpecFloat.fexp prec emax) (Zdigits2 m2 + e2)) in *.
  assert (HfE1 : E1 = Z.max (Zdigits2 m1 + e1 - prec) (SpecFloat.emin prec emax)) by reflexivity.
  assert (HfE2 : E2 = Z.max (Zdigits2 m2 + e2 - prec) (SpecFloat.emin prec emax)) by reflexivity.
  assert (Hm1 : 0 <= m1) by (apply Z.div_pos; lia).
  assert (Hm2 : 0 <= m2) by (apply Z.div_pos; lia).
  assert (P1 : 0 < 2 ^ (e1 - k)) by (apply Z.pow_pos_nonneg; lia).
  assert (P2 : 0 < 2 ^ (e2 - k)) by (apply Z.pow_pos_nonneg; lia).
  (* the exponents are in order *)
  assert (HE : E1 <= E2).
  { destruct (Z.eq_dec m1 0) as [Z1|NZ1].
    - assert (Zdigits2 m1 = 0) by (rewrite Z1; reflexivity). lia.
    - pose proof (Zdigits2_bounds m1 ltac:(lia)) as B1.
      assert (B2 : m2 + 1 <= 2 ^ Zdigits2 m2).
      { destruct (Z.eq_dec m2 0) as [Z2|NZ2]; [rewrite Z2; cbn; lia|].
        pose proof (Zdigits2_bounds m2 ltac:(lia)). lia. }
      pose proof (Zdigits2_nonneg m1) as G1. pose proof (Zdigits2_nonneg m2) as G2.
      assert (L1 : m1 * D1 <= N1).
      { unfold m1. rewrite Z.mul_comm. apply Z.mul_div_le. lia. }
      assert (L2 : N2 < (m2 + 1) * D2).
      { unfold m2. pose proof (Z.mod_pos_bound N2 D2 HD2).
        pose proof (Z.div_mod N2 D2 ltac:(lia)). nia. }
      assert (C : 2 ^ (Zdigits2 m1 - 1) * 2 ^ (e1 - k) < 2 ^ Zdigits2 m2 * 2 ^ (e2 - k)).
      { apply Z.mul_lt_mono_pos_l with (p := D1 * D2); [nia|].
        apply Z.le_lt_trans with (m := N1 * D2 * 2 ^ (e1 - k)).
        - assert (2 ^ (Zdigits2 m1 - 1) * D1 <= N1) by nia. nia.
        - apply Z.le_lt_trans with (m := N2 * D1 * 2 ^ (e2 - k)); [exact Hle|].
          assert (N2 < 2 ^ Zdigits2 m2 * D2) by nia. nia. }
      pose proof (Zdigits2_pos m1 ltac:(lia)) as G1'.
      rewrite <- !Z.pow_add_r in C by lia.
      assert (Hlt : Zdigits2 m1 - 1 + (e1 - k) < Zdigits2 m2 + (e2 - k)).
      { apply (Z.pow_lt_mono_r_iff 2); [lia | lia | exact C]. }
      lia. }
  apply rnd_le; [exact HM1 | exact HM2 |].
  destruct (Z.eq_dec E1 E2) as [Ee|Ne].
  - left. split; [exact Ee|].
    apply round_half_even_mono.
    + assert (0 < 2 ^ (E1 - e1)) by (apply Z.pow_pos_nonneg; lia). nia.
    + assert (0 < 2 ^ (E2 - e2)) by (apply Z.pow_pos_nonneg; lia). nia.
    + rewrite <- Ee.
      assert (W : 0 < 2 ^ (E1 - k)) by (apply Z.pow_pos_nonneg; lia).
      assert (A1 : 2 ^ (e1 - k) * 2 ^ (E1 - e1) = 2 ^ (E1 - k))
        by (rewrite <- Z.pow_add_r by lia; f_equal; lia).
      assert (A2 : 2 ^ (e2 - k) * 2 ^ (E1 - e2) = 2 ^ (E1 - k))
        by (rewrite <- Z.pow_add_r by lia; f_equal; lia).
      apply Z.mul_le_mono_pos_l with (p := 2 ^ (E1 - k)); [exact W|].
      set (u := 2 ^ (E1 - e1)) in *. set (v := 2 ^ (E1 - e2)) in *.
      set (a := 2 ^ (e1 - k)) in *. set (b := 2 ^ (e2 - k)) in *.
      assert (U : 0 < u) by (apply Z.pow_pos_nonneg; lia).
      assert (V : 0 < v) by (apply Z.pow_pos_nonneg; lia).
      rewrite <- A1 at 1. rewrite <- A2.
      replace (a * u * (N1 * (D2 * v))) with (N1 * D2 * a * (u * v)) by ring.
      replace (b * v * (N2 * (D1 * u))) with (N2 * D1 * b * (u * v)) by ring.
      apply Z.mul_le_mono_nonneg_r; [nia | exact Hle].
  - right. split; [lia|]. apply Hnorm2. lia.
Qed.

End Order.

(** ** binary64: signs *)

Lemma SFcompare_opp (x y : spec_float) :
  SFcompare (SFopp x) (SFopp y) = SFcompare y x.
Proof.
  destruct x as [s1|s1| |s1 m1 e1], y as [s2|s2| |s2 m2 e2];
    cbn [SFopp SFcompare]; try reflexivity;
    try (destruct s1; reflexivity); try (destruct s2; reflexivity);
    try (destruct s1, s2; reflexivity).
  destruct s1, s2; cbn [negb]; try reflexivity.
  - rewrite (Z.compare_antisym e1 e2).
    destruct (e1 ?= e2); cbn [CompOpp]; try reflexivity.
    rewrite (Pos.compare_cont_antisym m2 m1 Eq). reflexivity.
  - rewrite (Z.compare_antisym e1 e2).
    destruct (e1 ?= e2); cbn [CompOpp]; try reflexivity.
    rewrite (Pos.compare_cont_antisym m1 m2 Eq). reflexivity.
Qed.

Lemma SFleb_opp (x y : spec_float) : SFleb (SFopp x) (SFopp y) = SFleb y x.
Proof. unfold SFleb. rewrite SFcompare_opp. reflexivity. Qed.

Lemma SFleb_opp_nonneg (a b : spec_float) :
  SF_nonneg a = true -> SF_nonneg b = true -> SFleb (SFopp a) b = true.
Proof.
  destruct a as [[]|[]| |[] m1 e1], b as [[]|[]| |[] m2 e2]; cbn; congruence.
Qed.

Lemma binary_round_aux_opp (prec emax : Z) (m e : Z) (l : location) :
  binary_round_aux prec emax true m e l = SFopp (binary_round_aux prec emax false m e l).
Proof.
  unfold binary_round_aux.
  destruct (shr_fexp prec emax m e l) as [mrs e'].
  destruct (shr_fexp prec emax _ e' loc_Exact) as [mrs'' e''].
  destruct (shr_m mrs''); [reflexivity | destruct (_ <=? _); reflexivity | reflexivity].
Qed.

Lemma binary_round_aux_nonneg (prec emax : Z) (m e : Z) (l : location) :
  0 <= m -> SF_nonneg (binary_round_aux prec emax false m e l) = true.
Proof.
  intros Hm.
  pose proof (binary_round_aux_not_nan prec emax false m e l Hm) as NN.
  unfold binary_round_aux in *.
  destruct (shr_fexp prec emax m e l) as [mrs e'].
  destruct (shr_fexp prec emax _ e' loc_Exact) as [mrs'' e''].
  destruct (shr_m mrs''); [reflexivity | destruct (_ <=? _); reflexivity | congruence].
Qed.

(** An operation that keeps zeros and infinities, and on finite floats works
    on the magnitude and carries the sign, is monotone when it is monotone on
    the magnitudes. *)
Section Signed.

Variable f : spec_float -> spec_float.
Variable g : positive -> Z -> spec_float.
Variable P : positive -> Z -> Prop.

Hypothesis Hz : forall s, f (S754_zero s) = S754_zero s.
Hypothesis Hi : forall s, f (S754_infinity s) = S754_infinity s.
Hypothesis Hf : forall s m e,
  f (S754_finite s m e) = if s then SFopp (g m e) else g m e.
Hypothesis Hg : forall m e, SF_nonneg (g m e) = true.
Hypothesis Hm : forall m1 e1 m2 e2,
  P m1 e1 -> P m2 e2 ->
  SFleb (S754_finite false m1 e1) (S754_finite false m2 e2) = true ->
  SFleb (g m1 e1) (g m2 e2) = true.

Let ok (x : spec_float) : Prop :=
  match x with
  | S754_finite _ m e => P m e
  | _ => True
  end.

Lemma SFleb_signed (x y : spec_float) :
  ok x -> ok y -> SFleb x y = true -> SFleb (f x) (f y) = true.
Proof.
  intros Hx Hy Hle.
  destruct x as [s1|s1| |s1 m1 e1], y as [s2|s2| |s2 m2 e2];
    try (cbn in Hle; discriminate);
    rewrite ?Hz, ?Hi, ?Hf.
  - reflexivity.
  - destruct s2; [cbn in Hle; discriminate|]. reflexivity.
  - destruct s2; [cbn in Hle; discriminate|].
    pose proof (Hg m2 e2) as G. destruct (g m2 e2) as [[]|[]| |[] m e]; try discriminate; reflexivity.
  - destruct s1; [reflexivity | cbn in Hle; discriminate].
  - destruct s1, s2; try reflexivity; cbn in Hle; discriminate.
  - destruct s1; [|cbn in Hle; discriminate].
    destruct s2.
    + pose proof (Hg m2 e2) as G.
      destruct (g m2 e2) as [[]|[]| |[] m e]; try discriminate; reflexivity.
    + pose proof (Hg m2 e2) as G.
      destruct (g m2 e2) as [[]|[]| |[] m e]; try discriminate; reflexivity.
  - destruct s1; [|cbn in Hle; discriminate].
    pose proof (Hg m1 e1) as G.
    destruct (g m1 e1) as [[]|[]| |[] m e]; try discriminate; reflexivity.
  - destruct s2; [destruct s1; cbn in Hle; discriminate|].
    destruct s1.
    + pose proof (Hg m1 e1) as G.
      destruct (g m1 e1) as [[]|[]| |[] m e]; try discriminate; reflexivity.
    + pose proof (Hg m1 e1) as G.
      destruct (g m1 e1) as [[]|[]| |[] m e]; try discriminate; reflexivity.
  - destruct s1, s2.
    + rewrite SFleb_opp. apply Hm; [exact Hy | exact Hx |].
      change (S754_finite true m1 e1) with (SFopp (S754_finite false m1 e1)) in Hle.
      change (S754_finite true m2 e2) with (SFopp (S754_finite false m2 e2)) in Hle.
      rewrite SFleb_opp in Hle. exact Hle.
    + apply SFleb_opp_nonneg; apply Hg.
    + cbn in Hle. discriminate.
    + apply Hm; assumption.
Qed.

End Signed.

(** ** binary64: multiplication and division keep the order *)

Lemma Zdigits2_ge (m k : Z) : 0 < m -> 2 ^ (k - 1) <= m -> k <= Zdigits2 m.
Proof.
  intros Hm Hk.
  pose proof (Zdigits2_bounds m Hm) as B.
  pose proof (Zdigits2_pos m Hm) as P.
  destruct (Z_le_gt_dec k (Zdigits2 m)) as [L|G]; [exact L|exfalso].
  assert (2 ^ Zdigits2 m <= 2 ^ (k - 1)) by (apply Z.pow_le_mono_r; lia).
  lia.
Qed.

Lemma loc_of_1 (N : Z) : loc_of N 1 = loc_Exact.
Proof. unfold loc_of. rewrite Z.mod_1_r. reflexivity. Qed.

Section Operations.

Variables prec emax : Z.
Hypothesis Hprec : 0 < prec.
Hypothesis Hemin : SpecFloat.emin prec emax <= 0.

Lemma bounded_facts (m : positive) (e : Z) :
  (SpecFloat.bounded prec emax) m e = true ->
  (SpecFloat.emin prec emax) <= e /\ Zdigits2 (Zpos m) <= prec /\ ((SpecFloat.emin prec emax) < e -> Zdigits2 (Zpos m) = prec).
Proof.
  unfold SpecFloat.bounded, canonical_mantissa. intros H.
  apply andb_true_iff in H. destruct H as [H _]. apply Z.eqb_eq in H.
  change (Zpos (digits2_pos m)) with (Zdigits2 (Zpos m)) in H.
  rewrite fexp_eq in H. lia.
Qed.

(** The order of two positive canonical floats is the order of their
    values. *)
Lemma SFleb_pos_value (m1 : positive) (e1 : Z) (m2 : positive) (e2 : Z) :
  (SpecFloat.bounded prec emax) m1 e1 = true -> (SpecFloat.bounded prec emax) m2 e2 = true ->
  SFleb (S754_finite false m1 e1) (S754_finite false m2 e2) = true ->
  Zpos m1 * 2 ^ (e1 - (SpecFloat.emin prec emax)) <= Zpos m2 * 2 ^ (e2 - (SpecFloat.emin prec emax)).
Proof.
  intros B1 B2 Hle.
  destruct (bounded_facts m1 e1 B1) as (He1 & Hd1 & _).
  destruct (bounded_facts m2 e2 B2) as (He2 & _ & Hn2).
  unfold SFleb in Hle. cbn [SFcompare] in Hle.
  destruct (Z.compare_spec e1 e2) as [E|L|G]; [| |discriminate].
  - subst e2.
    assert (Hm : (m1 <= m2)%positive).
    { unfold Pos.le, Pos.compare. destruct (Pos.compare_cont Eq m1 m2); congruence. }
    assert (0 < 2 ^ (e1 - (SpecFloat.emin prec emax))) by (apply Z.pow_pos_nonneg; lia). nia.
  - pose proof (Zdigits2_bounds (Zpos m1) ltac:(lia)) as U1.
    pose proof (Zdigits2_bounds (Zpos m2) ltac:(lia)) as U2.
    rewrite (Hn2 ltac:(lia)) in U2.
    pose proof (Zdigits2_pos (Zpos m1) ltac:(lia)) as P1.
    assert (T1 : Zpos m1 < 2 ^ prec).
    { assert (2 ^ Zdigits2 (Zpos m1) <= 2 ^ prec) by (apply Z.pow_le_mono_r; lia). lia. }
    apply Z.le_trans with (m := 2 ^ prec * 2 ^ (e1 - (SpecFloat.emin prec emax))).
    + assert (0 < 2 ^ (e1 - (SpecFloat.emin prec emax))) by (apply Z.pow_pos_nonneg; lia). nia.
    + apply Z.le_trans with (m := 2 ^ (prec - 1) * 2 ^ (e2 - (SpecFloat.emin prec emax))).
      * rewrite <- !Z.pow_add_r by lia. apply Z.pow_le_mono_r; lia.
      * assert (0 < 2 ^ (e2 - (SpecFloat.emin prec emax))) by (apply Z.pow_pos_nonneg; lia). nia.
Qed.

(** Exact inputs: the number is [N * 2 ^ e]. *)
Lemma binary_round_aux_mono_exact (N1 e1 N2 e2 k : Z) :
  0 <= N1 -> 0 <= N2 ->
  e1 <= (SpecFloat.fexp prec emax) (Zdigits2 N1 + e1) ->
  e2 <= (SpecFloat.fexp prec emax) (Zdigits2 N2 + e2) ->
  k <= e1 -> k <= e2 ->
  N1 * 2 ^ (e1 - k) <= N2 * 2 ^ (e2 - k) ->
  SFleb (binary_round_aux prec emax false N1 e1 loc_Exact)
        (binary_round_aux prec emax false N2 e2 loc_Exact) = true.
Proof.
  intros HN1 HN2 HE1 HE2 Hk1 Hk2 Hle.
  pose proof (binary_round_aux_mono prec emax Hprec N1 1 e1 N2 1 e2 k) as H.
  rewrite !Z.div_1_r, !loc_of_1 in H.
  apply H; try assumption; lia.
Qed.

Section Multiplication.

Variables (mz : positive) (ez : Z).
Hypothesis Hzb : (SpecFloat.bounded prec emax) mz ez = true.

Lemma mul_digits (m : positive) (e : Z) :
  (SpecFloat.bounded prec emax) m e = true ->
  e + ez <= (SpecFloat.fexp prec emax) (Zdigits2 (Zpos (m * mz)) + (e + ez)).
Proof.
  intros Hb.
  destruct (bounded_facts m e Hb) as (He & Hd & Hn).
  destruct (bounded_facts mz ez Hzb) as (Hez & Hdz & Hnz).
  rewrite fexp_eq.
  destruct (Z_le_gt_dec (e + ez) (SpecFloat.emin prec emax)) as [L|G]; [lia|].
  assert (Hdig : prec <= Zdigits2 (Zpos (m * mz))).
  { rewrite Pos2Z.inj_mul.
    destruct (Z_le_gt_dec e (SpecFloat.emin prec emax)) as [Le|Ge].
    - assert (Hz : Zdigits2 (Zpos mz) = prec) by (apply Hnz; lia).
      pose proof (Zdigits2_bounds (Zpos mz) ltac:(lia)) as U. rewrite Hz in U.
      apply Zdigits2_ge; nia.
    - assert (Hx : Zdigits2 (Zpos m) = prec) by (apply Hn; lia).
      pose proof (Zdigits2_bounds (Zpos m) ltac:(lia)) as U. rewrite Hx in U.
      apply Zdigits2_ge; nia. }
  lia.
Qed.

(** Multiplying by a positive finite float keeps the order. *)
Lemma SFmul_mono (x y : spec_float) :
  SpecFloat.valid_binary prec emax x = true ->
  SpecFloat.valid_binary prec emax y = true ->
  SFleb x y = true ->
  SFleb (SFmul prec emax x (S754_finite false mz ez))
        (SFmul prec emax y (S754_finite false mz ez)) = true.
Proof.
  intros Vx Vy Hle.
  apply (SFleb_signed
           (fun x => SFmul prec emax x (S754_finite false mz ez))
           (fun m e => binary_round_aux prec emax false (Zpos (m * mz)) (e + ez) loc_Exact)
           (fun m e => (SpecFloat.bounded prec emax) m e = true)).
  - intros s. cbn [SFmul]. rewrite xorb_false_r. reflexivity.
  - intros s. cbn [SFmul]. rewrite xorb_false_r. reflexivity.
  - intros s m e. cbn [SFmul]. rewrite xorb_false_r.
    destruct s; [apply binary_round_aux_opp | reflexivity].
  - intros m e. apply binary_round_aux_nonneg. lia.
  - intros m1 e1 m2 e2 B1 B2 H.
    pose proof (SFleb_pos_value m1 e1 m2 e2 B1 B2 H) as V.
    destruct (bounded_facts m1 e1 B1) as (He1 & _).
    destruct (bounded_facts m2 e2 B2) as (He2 & _).
    apply binary_round_aux_mono_exact with (k := (SpecFloat.emin prec emax) + ez); try lia.
    + apply mul_digits. exact B1.
    + apply mul_digits. exact B2.
    + replace (e1 + ez - ((SpecFloat.emin prec emax) + ez)) with (e1 - (SpecFloat.emin prec emax)) by ring.
      replace (e2 + ez - ((SpecFloat.emin prec emax) + ez)) with (e2 - (SpecFloat.emin prec emax)) by ring.
      rewrite !Pos2Z.inj_mul. nia.
  - destruct x; try exact I. exact Vx.
  - destruct y; try exact I. exact Vy.
  - exact Hle.
Qed.

End Multiplication.

(** What [SFdiv_core_binary] hands to the rounding. *)
Lemma SFdiv_core_spec (mx : positive) (ex : Z) (md : positive) (ed : Z) :
  let e' := Z.min ((SpecFloat.fexp prec emax) (Zdigits2 (Zpos mx) + ex - (Zdigits2 (Zpos md) + ed))) (ex - ed) in
  let N := Zpos mx * 2 ^ (ex - ed - e') in
  SFdiv_core_binary prec emax (Zpos mx) ex (Zpos md) ed
  = (N / Zpos md, e', loc_of N (Zpos md))
  /\ e' <= ex - ed
  /\ e' <= (SpecFloat.fexp prec emax) (Zdigits2 (N / Zpos md) + e').
Proof.
  intros e' N.
  assert (He' : e' <= ex - ed) by (unfold e'; lia).
  assert (Hpow : 0 < 2 ^ (ex - ed - e')) by (apply Z.pow_pos_nonneg; lia).
  assert (HN : 0 < N) by (unfold N; nia).
  split; [|split; [exact He'|]].
  - unfold SFdiv_core_binary. fold e'.
    assert (Hm' : match ex - ed - e' with
                  | Zpos _ => Z.shiftl (Zpos mx) (ex - ed - e')
                  | Z0 => Zpos mx
                  | Zneg _ => 0
                  end = N).
    { unfold N. destruct (ex - ed - e') as [|p|p] eqn:Es;
        [ rewrite Z.pow_0_r; lia | rewrite Z.shiftl_mul_pow2 by lia; reflexivity | lia ]. }
    rewrite Hm'.
    pose proof (Z.mod_pos_bound N (Zpos md) ltac:(lia)) as Hr.
    unfold Z.modulo in Hr. unfold loc_of, Z.div, Z.modulo.
    destruct (Z.div_eucl N (Zpos md)) as [q r]. cbn [fst snd] in *.
    rewrite new_location_loc_of by lia. reflexivity.
  - rewrite fexp_eq.
    destruct (Z_le_gt_dec e' (SpecFloat.emin prec emax)) as [L|G]; [lia|].
    set (d1 := Zdigits2 (Zpos mx)) in *. set (d2 := Zdigits2 (Zpos md)) in *.
    assert (Hf : (SpecFloat.fexp prec emax) (d1 + ex - (d2 + ed)) = d1 + ex - (d2 + ed) - prec).
    { assert (e' <= (SpecFloat.fexp prec emax) (d1 + ex - (d2 + ed))) by (unfold e'; lia).
      rewrite fexp_eq in *. lia. }
    assert (Hs : prec + d2 - d1 <= ex - ed - e') by (unfold e' at 1; lia).
    pose proof (Zdigits2_bounds (Zpos mx) ltac:(lia)) as U1. fold d1 in U1.
    pose proof (Zdigits2_bounds (Zpos md) ltac:(lia)) as U2. fold d2 in U2.
    pose proof (Zdigits2_pos (Zpos mx) ltac:(lia)) as P1. fold d1 in P1.
    pose proof (Zdigits2_pos (Zpos md) ltac:(lia)) as P2. fold d2 in P2.
    assert (Hq : 2 ^ (prec - 1) <= N / Zpos md).
    { apply Z.div_le_lower_bound; [lia|].
      apply Z.le_trans with (m := 2 ^ d2 * 2 ^ (prec - 1)).
      - assert (0 < 2 ^ (prec - 1)) by (apply Z.pow_pos_nonneg; lia). nia.
      - unfold N.
        apply Z.le_trans with (m := 2 ^ (d1 - 1) * 2 ^ (ex - ed - e')).
        + rewrite <- !Z.pow_add_r by lia. apply Z.pow_le_mono_r; lia.
        + nia. }
    assert (Hdq : prec <= Zdigits2 (N / Zpos md)).
    { apply Zdigits2_ge; [|exact Hq].
      assert (0 < 2 ^ (prec - 1)) by (apply Z.pow_pos_nonneg; lia). lia. }
    lia.
Qed.

(** Dividing two positive numbers given in order by the same positive float
    keeps the order. *)
Lemma SFdiv_pos_mono (m1 : positive) (e1 : Z) (m2 : positive) (e2 : Z)
    (md : positive) (ed k : Z) :
  k <= e1 -> k <= e2 ->
  Zpos m1 * 2 ^ (e1 - k) <= Zpos m2 * 2 ^ (e2 - k) ->
  SFleb (SFdiv prec emax (S754_finite false m1 e1) (S754_finite false md ed))
        (SFdiv prec emax (S754_finite false m2 e2) (S754_finite false md ed)) = true.
Proof.
  intros Hk1 Hk2 Hle. cbn [SFdiv xorb].
  destruct (SFdiv_core_spec m1 e1 md ed) as (-> & Hs1 & Hd1).
  destruct (SFdiv_core_spec m2 e2 md ed) as (-> & Hs2 & Hd2).
  cbv zeta in *.
  set (e1' := Z.min _ (e1 - ed)) in *. set (e2' := Z.min _ (e2 - ed)) in *.
  set (k' := Z.min (Z.min e1' e2') (k - ed)).
  apply binary_round_aux_mono with (k := k'); try (unfold k'; lia);
    try exact Hprec; try exact Hd1; try exact Hd2.
  - assert (A1 : 2 ^ (e1 - ed - e1') * 2 ^ (e1' - k') = 2 ^ (e1 - k) * 2 ^ (k - ed - k'))
      by (rewrite <- !Z.pow_add_r by (unfold k'; lia); f_equal; lia).
    assert (A2 : 2 ^ (e2 - ed - e2') * 2 ^ (e2' - k') = 2 ^ (e2 - k) * 2 ^ (k - ed - k'))
      by (rewrite <- !Z.pow_add_r by (unfold k'; lia); f_equal; lia).
    assert (W : 0 < 2 ^ (k - ed - k')) by (apply Z.pow_pos_nonneg; unfold k'; lia).
    replace (Zpos m1 * 2 ^ (e1 - ed - e1') * Zpos md * 2 ^ (e1' - k'))
      with (Zpos md * (Zpos m1 * (2 ^ (e1 - ed - e1') * 2 ^ (e1' - k')))) by ring.
    replace (Zpos m2 * 2 ^ (e2 - ed - e2') * Zpos md * 2 ^ (e2' - k'))
      with (Zpos md * (Zpos m2 * (2 ^ (e2 - ed - e2') * 2 ^ (e2' - k')))) by ring.
    rewrite A1, A2.
    apply Z.mul_le_mono_nonneg_l; [lia|]. nia.
Qed.

(** The quotient of two finite floats is a canonical float. *)
Lemma SFdiv_valid (s1 : bool) (m1 : positive) (e1 : Z) (s2 : bool) (m2 : positive) (e2 : Z) :
  SpecFloat.valid_binary prec emax
    (SFdiv prec emax (S754_finite s1 m1 e1) (S754_finite s2 m2 e2)) = true.
Proof.
  cbn [SFdiv].
  destruct (SFdiv_core_spec m1 e1 m2 e2) as (-> & Hs & Hd). cbv zeta in *.
  set (e' := Z.min _ (e1 - e2)) in *.
  set (N := Zpos m1 * 2 ^ (e1 - e2 - e')) in *.
  assert (HN : 0 <= N).
  { assert (0 < 2 ^ (e1 - e2 - e')) by (apply Z.pow_pos_nonneg; lia). unfold N. nia. }
  destruct (binary_round_aux_spec prec emax Hprec (xorb s1 s2) N (Zpos m2) e'
              ltac:(lia) HN Hd) as (-> & HM & Hnorm).
  apply rnd_valid; try assumption. apply fexp_ge_emin.
Qed.

End Operations.

Lemma SFleb_zero_nonneg (b : spec_float) :
  SF_nonneg b = true -> SFleb (S754_zero false) b = true.
Proof. destruct b as [[]|[]| |[] m e]; cbn; congruence. Qed.

Lemma round_half_even_1 (a : Z) : round_half_even a 1 = a.
Proof.
  unfold round_half_even. rewrite Z.div_1_r, Z.mod_1_r. reflexivity.
Qed.

Lemma round_half_even_nonneg (a b : Z) : 0 <= a -> 0 < b -> 0 <= round_half_even a b.
Proof.
  intros Ha Hb. unfold round_half_even.
  assert (0 <= a / b) by (apply Z.div_pos; lia).
  destruct (2 * (a mod b) ?= b); [destruct (Z.even _)| |]; lia.
Qed.

Section Division.

Variables prec emax : Z.
Hypothesis Hprec : 0 < prec.
Hypothesis Hemin : SpecFloat.emin prec emax <= 0.

Lemma SFdiv_nonneg (m : positive) (e : Z) (md : positive) (ed : Z) :
  SF_nonneg (SFdiv prec emax (S754_finite false m e) (S754_finite false md ed)) = true.
Proof.
  cbn [SFdiv xorb].
  destruct (SFdiv_core_spec prec emax Hprec m e md ed) as (-> & Hs & _). cbv zeta in *.
  apply binary_round_aux_nonneg.
  apply Z.div_pos; [|lia].
  assert (0 < 2 ^ (e - ed - Z.min (SpecFloat.fexp prec emax
            (Zdigits2 (Zpos m) + e - (Zdigits2 (Zpos md) + ed))) (e - ed)))
    by (apply Z.pow_pos_nonneg; lia).
  nia.
Qed.

Lemma SFdiv_opp (m : positive) (e : Z) (md : positive) (ed : Z) :
  SFdiv prec emax (S754_finite true m e) (S754_finite false md ed)
  = SFopp (SFdiv prec emax (S754_finite false m e) (S754_finite false md ed)).
Proof.
  cbn [SFdiv xorb].
  destruct (SFdiv_core_binary prec emax (Zpos m) e (Zpos md) ed) as [[m' e'] l].
  apply binary_round_aux_opp.
Qed.

Section ByPositive.

Variables (md : positive) (ed : Z).
Variable P : positive -> Z -> Prop.
Variable k : Z.
Hypothesis Pk : forall m e, P m e -> k <= e.
Hypothesis Pv : forall m1 e1 m2 e2,
  P m1 e1 -> P m2 e2 ->
  SFleb (S754_finite false m1 e1) (S754_finite false m2 e2) = true ->
  Zpos m1 * 2 ^ (e1 - k) <= Zpos m2 * 2 ^ (e2 - k).

Lemma SFdiv_mono_gen (x y : spec_float) :
  match x with S754_finite _ m e => P m e | _ => True end ->
  match y with S754_finite _ m e => P m e | _ => True end ->
  SFleb x y = true ->
  SFleb (SFdiv prec emax x (S754_finite false md ed))
        (SFdiv prec emax y (S754_finite false md ed)) = true.
Proof.
  intros Hx Hy Hle.
  apply (SFleb_signed
           (fun x => SFdiv prec emax x (S754_finite false md ed))
           (fun m e => SFdiv prec emax (S754_finite false m e) (S754_finite false md ed))
           P).
  - intros s. cbn [SFdiv]. rewrite xorb_false_r. reflexivity.
  - intros s. cbn [SFdiv]. rewrite xorb_false_r. reflexivity.
  - intros s m e. destruct s; [apply SFdiv_opp | reflexivity].
  - intros m e. apply SFdiv_nonneg.
  - intros m1 e1 m2 e2 P1 P2 H.
    apply SFdiv_pos_mono with (k := k); try assumption.
    + apply (Pk m1 e1 P1).
    + apply (Pk m2 e2 P2).
    + apply Pv; assumption.
  - exact Hx.
  - exact Hy.
  - exact Hle.
Qed.

End ByPositive.

(** Dividing by a positive finite float keeps the order of canonical
    floats. *)
Lemma SFdiv_mono (md : positive) (ed : Z) (x y : spec_float) :
  SpecFloat.valid_binary prec emax x = true ->
  SpecFloat.valid_binary prec emax y = true ->
  SFleb x y = true ->
  SFleb (SFdiv prec emax x (S754_finite false md ed))
        (SFdiv prec emax y (S754_finite false md ed)) = true.
Proof.
  intros Vx Vy Hle.
  apply (SFdiv_mono_gen md ed (fun m e => (SpecFloat.bounded prec emax) m e = true) (SpecFloat.emin prec emax)).
  - intros m e Hb. apply (bounded_facts prec emax m e Hb).
  - intros m1 e1 m2 e2 B1 B2 H. apply SFleb_pos_value; assumption.
  - destruct x; try exact I. exact Vx.
  - destruct y; try exact I. exact Vy.
  - exact Hle.
Qed.

(** The same for two integers. *)
Lemma SFdiv_mono_int (md : positive) (ed : Z) (a b : Z) :
  a <= b ->
  SFleb (SFdiv prec emax (B64.SF_of_Z a) (S754_finite false md ed))
        (SFdiv prec emax (B64.SF_of_Z b) (S754_finite false md ed)) = true.
Proof.
  intros Hab.
  apply (SFdiv_mono_gen md ed (fun m e => e = 0) 0).
  - intros m e ->. lia.
  - intros m1 e1 m2 e2 -> -> H.
    unfold SFleb in H. cbn [SFcompare] in H. rewrite Z.compare_refl in H.
    assert (Hm : (m1 <= m2)%positive).
    { unfold Pos.le, Pos.compare. destruct (Pos.compare_cont Eq m1 m2); congruence. }
    rewrite Z.sub_0_r, Z.pow_0_r. lia.
  - destruct a; cbn; auto.
  - destruct b; cbn; auto.
  - destruct a as [|p|p], b as [|q|q]; try lia; try reflexivity.
    + unfold B64.SF_of_Z, SFleb. cbn [SFcompare]. rewrite Z.compare_refl.
      assert (Hpq : (p <= q)%positive) by lia.
      unfold Pos.le, Pos.compare in Hpq.
      destruct (Pos.compare_cont Eq p q); congruence.
    + unfold B64.SF_of_Z, SFleb. cbn [SFcompare]. rewrite Z.compare_refl.
      assert (Hpq : (q <= p)%positive) by lia.
      unfold Pos.le, Pos.compare in Hpq.
      rewrite Pos.compare_cont_antisym. cbn [CompOpp].
      destruct (Pos.compare_cont Eq q p); congruence.
Qed.

Lemma SFdiv_int_valid (a : Z) (md : positive) (ed : Z) :
  SpecFloat.valid_binary prec emax
    (SFdiv prec emax (B64.SF_of_Z a) (S754_finite false md ed)) = true.
Proof.
  destruct a as [|p|p]; [reflexivity| |]; apply SFdiv_valid; assumption.
Qed.

End Division.

(** ** binary64: the operations of [calculate_emi] *)

Lemma SFopp_involutive (x : spec_float) : SFopp (SFopp x) = x.
Proof. destruct x as [[]|[]| |[] m e]; reflexivity. Qed.

Lemma hundredths_mono (c : Z) (m1 : positive) (e1 : Z) (m2 : positive) (e2 : Z) :
  c <= e1 -> c <= e2 -> c <= 0 ->
  Zpos m1 * 2 ^ (e1 - c) <= Zpos m2 * 2 ^ (e2 - c) ->
  round_half_even (100 * Zpos m1 * 2 ^ Z.max e1 0) (2 ^ Z.max (- e1) 0)
  <= round_half_even (100 * Zpos m2 * 2 ^ Z.max e2 0) (2 ^ Z.max (- e2) 0).
Proof.
  intros H1 H2 Hc V.
  apply round_half_even_mono; try (apply Z.pow_pos_nonneg; lia).
  assert (X1 : 2 ^ (e1 - c) * 2 ^ (Z.max (- e1) 0 + Z.max (- e2) 0)
               = 2 ^ Z.max e1 0 * 2 ^ Z.max (- e2) 0 * 2 ^ (- c))
    by (rewrite <- !Z.pow_add_r by lia; f_equal; lia).
  assert (X2 : 2 ^ (e2 - c) * 2 ^ (Z.max (- e1) 0 + Z.max (- e2) 0)
               = 2 ^ Z.max e2 0 * 2 ^ Z.max (- e1) 0 * 2 ^ (- c))
    by (rewrite <- !Z.pow_add_r by lia; f_equal; lia).
  assert (W : 0 < 2 ^ (- c)) by (apply Z.pow_pos_nonneg; lia).
  assert (S : 0 < 2 ^ (Z.max (- e1) 0 + Z.max (- e2) 0)) by (apply Z.pow_pos_nonneg; lia).
  assert (V' : Zpos m1 * (2 ^ (e1 - c) * 2 ^ (Z.max (- e1) 0 + Z.max (- e2) 0))
               <= Zpos m2 * (2 ^ (e2 - c) * 2 ^ (Z.max (- e1) 0 + Z.max (- e2) 0))).
  { rewrite !Z.mul_assoc. apply Z.mul_le_mono_nonneg_r; [lia | exact V]. }
  rewrite X1, X2 in V'.
  set (a1 := 2 ^ Z.max e1 0) in *. set (a2 := 2 ^ Z.max e2 0) in *.
  set (b1 := 2 ^ Z.max (- e1) 0) in *. set (b2 := 2 ^ Z.max (- e2) 0) in *.
  set (w := 2 ^ (- c)) in *.
  assert (V2 : (Zpos m1 * a1 * b2) * w <= (Zpos m2 * a2 * b1) * w) by lia.
  apply Z.mul_le_mono_pos_r in V2; [lia | exact W].
Qed.

Lemma prec_pos : 0 < prec.
Proof. reflexivity. Qed.

Lemma emin_nonpos : SpecFloat.emin prec emax <= 0.
Proof. vm_compute. discriminate. Qed.

Lemma SF_of_ratio_valid (a : Z) (d : positive) :
  valid_binary (B64.SF_of_ratio a (Zpos d)) = true.
Proof. apply (SFdiv_int_valid prec emax prec_pos a d 0). Qed.

Lemma SF_of_ratio_mono (a b : Z) (d : positive) :
  a <= b -> SFleb (B64.SF_of_ratio a (Zpos d)) (B64.SF_of_ratio b (Zpos d)) = true.
Proof. apply (SFdiv_mono_int prec emax prec_pos d 0 a b). Qed.

Lemma SF_round2_finite (s : bool) (m : positive) (e : Z) :
  B64.SF_round2 (S754_finite s m e)
  = match round_half_even (100 * Zpos m * 2 ^ Z.max e 0) (2 ^ Z.max (- e) 0) with
    | Z0 => S754_zero s
    | k => B64.SF_of_ratio (if s then - k else k) 100
    end.
Proof.
  unfold B64.SF_round2. destruct e as [|p|p].
  - change (Z.max 0 0) with 0. change (Z.max (- 0) 0) with 0.
    rewrite Z.pow_0_r, round_half_even_1.
    destruct (100 * Zpos m * 2 ^ 0); reflexivity.
  - assert (E1 : Z.max (Zpos p) 0 = Zpos p) by lia.
    assert (E2 : Z.max (- Zpos p) 0 = 0) by lia.
    rewrite E1, E2, Z.pow_0_r, round_half_even_1.
    destruct (100 * Zpos m * 2 ^ Zpos p); reflexivity.
  - assert (E1 : Z.max (Zneg p) 0 = 0) by lia.
    assert (E2 : Z.max (- Zneg p) 0 = Zpos p) by lia.
    rewrite E1, E2, Z.pow_0_r, Z.mul_1_r.
    change (2 ^ Zpos p) with (Z.pow_pos 2 p).
    destruct (round_half_even (100 * Zpos m) (Z.pow_pos 2 p)); reflexivity.
Qed.

Lemma SF_round2_valid (x : spec_float) :
  valid_binary x = true -> valid_binary (B64.SF_round2 x) = true.
Proof.
  intros V. destruct x as [s|s| |s m e]; try exact V.
  rewrite SF_round2_finite.
  destruct (round_half_even _ _); [reflexivity | |]; apply (SF_of_ratio_valid _ 100).
Qed.

Lemma SF_round2_mono (x y : spec_float) :
  valid_binary x = true -> valid_binary y = true ->
  SFleb x y = true -> SFleb (B64.SF_round2 x) (B64.SF_round2 y) = true.
Proof.
  intros Vx Vy Hle.
  assert (K : forall m e, 0 <= round_half_even (100 * Zpos m * 2 ^ Z.max e 0) (2 ^ Z.max (- e) 0)).
  { intros m e. apply round_half_even_nonneg.
    - assert (0 < 2 ^ Z.max e 0) by (apply Z.pow_pos_nonneg; lia). nia.
    - apply Z.pow_pos_nonneg; lia. }
  apply (SFleb_signed B64.SF_round2
           (fun m e => B64.SF_round2 (S754_finite false m e))
           (fun m e => bounded prec emax m e = true)).
  - reflexivity.
  - reflexivity.
  - intros s m e. destruct s; [|reflexivity].
    rewrite !SF_round2_finite. pose proof (K m e) as Kme.
    destruct (round_half_even _ _) as [|k|k]; [reflexivity| |lia].
    apply (SFdiv_opp prec emax k 0 100 0).
  - intros m e. rewrite SF_round2_finite. pose proof (K m e) as Kme.
    destruct (round_half_even _ _) as [|k|k]; [reflexivity| |lia].
    apply (SFdiv_nonneg prec emax prec_pos k 0 100 0).
  - intros m1 e1 m2 e2 B1 B2 H.
    pose proof (SFleb_pos_value prec emax prec_pos m1 e1 m2 e2 B1 B2 H) as V.
    destruct (bounded_facts prec emax m1 e1 B1) as (He1 & _).
    destruct (bounded_facts prec emax m2 e2 B2) as (He2 & _).
    pose proof (hundredths_mono _ m1 e1 m2 e2 He1 He2 emin_nonpos V) as Hk.
    rewrite !SF_round2_finite.
    pose proof (K m1 e1) as K1. pose proof (K m2 e2) as K2.
    destruct (round_half_even (100 * Zpos m1 * _) _) as [|k1|k1]; [| |lia].
    + apply SFleb_zero_nonneg.
      destruct (round_half_even _ _) as [|k2|k2]; [reflexivity| |lia].
      apply (SFdiv_nonneg prec emax prec_pos k2 0 100 0).
    + destruct (round_half_even _ _) as [|k2|k2]; [lia| |lia].
      apply (SF_of_ratio_mono (Zpos k1) (Zpos k2) 100). exact Hk.
  - destruct x; try exact I. exact Vx.
  - destruct y; try exact I. exact Vy.
  - exact Hle.
Qed.

(** *** The operations of [calculate_emi] keep the order *)

Lemma of_decimal_mono (h h' : Z) :
  h <= h' -> fleb (F:=float) (of_decimal h) (of_decimal h') = true.
Proof.
  intros Hh. cbn [fleb binary64]. rewrite leb_spec.
  unfold of_decimal. cbn [of_ratio binary64]. unfold B64.of_ratio.
  rewrite !Prim2SF_SF2Prim by apply (SF_of_ratio_valid _ 100).
  apply (SF_of_ratio_mono h h' 100). exact Hh.
Qed.

Lemma fmul_mono (x y z : float) :
  positive_finite z = true ->
  fleb x y = true -> fleb (fmul x z) (fmul y z) = true.
Proof.
  unfold positive_finite. cbn [fleb fmul binary64]. intros Hz Hle.
  rewrite leb_spec in *. rewrite !mul_spec.
  pose proof (Prim2SF_valid z) as Vz.
  destruct (Prim2SF z) as [| | |[] mz ez]; try discriminate.
  apply (SFmul_mono prec emax prec_pos emin_nonpos mz ez Vz);
    [apply Prim2SF_valid | apply Prim2SF_valid | exact Hle].
Qed.

Lemma fdiv_mono (x y z : float) :
  positive_finite z = true ->
  fleb x y = true -> fleb (fdiv x z) (fdiv y z) = true.
Proof.
  unfold positive_finite. cbn [fleb fdiv binary64]. intros Hz Hle.
  rewrite leb_spec in *. rewrite !div_spec.
  destruct (Prim2SF z) as [| | |[] mz ez]; try discriminate.
  apply (SFdiv_mono prec emax prec_pos mz ez);
    [apply Prim2SF_valid | apply Prim2SF_valid | exact Hle].
Qed.

Lemma round2_mono (x y : float) :
  fleb x y = true -> fleb (round2 x) (round2 y) = true.
Proof.
  cbn [fleb round2 binary64]. unfold B64.round2. intros Hle.
  rewrite leb_spec in *.
  rewrite !Prim2SF_SF2Prim by (apply SF_round2_valid, Prim2SF_valid).
  apply SF_round2_mono; [apply Prim2SF_valid | apply Prim2SF_valid | exact Hle].
Qed.

Lemma positive_finite_nonzero (x : float) :
  positive_finite x = true -> feqb x (of_int 0) = false.
Proof.
  unfold positive_finite. cbn [feqb binary64]. rewrite eqb_spec.
  assert (E : Prim2SF (of_int 0) = S754_zero false) by (vm_compute; reflexivity).
  rewrite E.
  destruct (Prim2SF x) as [| | |[] m e]; try discriminate. reflexivity.
Qed.

Lemma iter_xO_pow (m d : positive) : Zpos (Pos.iter xO m d) = Zpos m * 2 ^ Zpos d.
Proof.
  change (Pos.iter xO m d) with (shift_pos d m).
  rewrite shift_pos_correct. change (Z.pow_pos 2 d) with (2 ^ Zpos d). lia.
Qed.

Lemma Zdigits2_shift (m d : Z) : 0 < m -> 0 <= d -> Zdigits2 (m * 2 ^ d) = Zdigits2 m + d.
Proof.
  intros Hm Hd.
  pose proof (Zdigits2_bounds m Hm) as B.
  pose proof (Zdigits2_pos m Hm) as P.
  assert (W : 0 < 2 ^ d) by (apply Z.pow_pos_nonneg; lia).
  apply Zdigits2_unique; [nia|].
  replace (Zdigits2 m + d - 1) with (Zdigits2 m - 1 + d) by ring.
  rewrite !Z.pow_add_r by lia. nia.
Qed.

Section Conversion.

Variables prec emax : Z.
Hypothesis Hprec : 0 < prec.
Hypothesis Hemin : SpecFloat.emin prec emax <= 0.

Lemma shl_align_spec (mx : positive) (ex : Z) :
  let '(mz, ez) := shl_align mx ex ((SpecFloat.fexp prec emax) (Zpos (digits2_pos mx) + ex)) in
  ez <= ex /\ Zpos mz = Zpos mx * 2 ^ (ex - ez)
  /\ ez <= (SpecFloat.fexp prec emax) (Zdigits2 (Zpos mz) + ez).
Proof.
  unfold shl_align.
  change (Zpos (digits2_pos mx)) with (Zdigits2 (Zpos mx)).
  set (E := (SpecFloat.fexp prec emax) (Zdigits2 (Zpos mx) + ex)).
  destruct (E - ex) as [|d|d] eqn:Ed.
  - rewrite Z.sub_diag, Z.pow_0_r. fold E. lia.
  - rewrite Z.sub_diag, Z.pow_0_r. fold E. lia.
  - rewrite iter_xO_pow.
    assert (Hd : ex - E = Zpos d) by lia. rewrite Hd.
    split; [lia|split; [reflexivity|]].
    rewrite Zdigits2_shift by lia.
    replace (Zdigits2 (Zpos mx) + Zpos d + E) with (Zdigits2 (Zpos mx) + ex) by lia.
    fold E. lia.
Qed.

(** Rounding a positive integer gives a positive float or an infinity. *)
Lemma binary_round_pos (p : positive) :
  match binary_round prec emax false p 0 with
  | S754_finite false _ _ | S754_infinity false => True
  | _ => False
  end
  /\ SpecFloat.valid_binary prec emax (binary_round prec emax false p 0) = true.
Proof.
  unfold binary_round.
  pose proof (shl_align_spec p 0) as S.
  destruct (shl_align p 0 _) as [mz ez]. destruct S as (Hez & Hmz & Hd).
  pose proof (binary_round_aux_spec prec emax Hprec false (Zpos mz) 1 ez
                ltac:(lia) ltac:(lia)) as R.
  rewrite Z.div_1_r, loc_of_1 in R. cbv zeta in R.
  destruct (R Hd) as (-> & HM & Hnorm). clear R.
  set (E := (SpecFloat.fexp prec emax) (Zdigits2 (Zpos mz) + ez)) in *.
  set (M := round_half_even (Zpos mz) (1 * 2 ^ (E - ez))) in *.
  assert (HE : (SpecFloat.emin prec emax) <= E) by apply fexp_ge_emin.
  assert (Hhalf : 0 < 2 ^ (prec - 1)) by (apply Z.pow_pos_nonneg; lia).
  assert (HM1 : 1 <= M).
  { destruct (Z_le_gt_dec E (SpecFloat.emin prec emax)) as [L|G]; [|specialize (Hnorm ltac:(lia)); lia].
    assert (W : 0 < 2 ^ (E - ez)) by (apply Z.pow_pos_nonneg; lia).
    pose proof (round_half_even_spec (Zpos mz) (1 * 2 ^ (E - ez)) ltac:(lia)) as RS.
    cbv zeta in RS. fold M in RS.
    assert (W1 : 2 ^ (E - ez) <= 2 ^ (0 - ez)) by (apply Z.pow_le_mono_r; lia).
    assert (W2 : 0 < 2 ^ (0 - ez)) by (apply Z.pow_pos_nonneg; lia).
    assert (W3 : 2 ^ (0 - ez) <= Zpos mz) by nia.
    destruct (Z_le_gt_dec 1 M) as [|Hneg]; [assumption|exfalso].
    assert (W4 : 1 * 2 ^ (E - ez) * M <= 0) by nia.
    lia. }
  split.
  - unfold rnd.
    destruct (Z.eqb_spec M 0) as [Z0|_]; [lia|].
    destruct (M <? 2 ^ prec); [destruct (_ <=? _)|destruct (_ <=? _)]; exact I.
  - apply rnd_valid; assumption.
Qed.

End Conversion.

Lemma of_long_positive (n : Z) (d : float) :
  0 < n -> of_long n = Ok d -> positive_finite d = true.
Proof.
  intros Hn. cbn [of_long binary64]. unfold B64.of_long, B64.SF_of_long.
  destruct n as [|p|p]; try lia. cbn [binary_normalize].
  destruct (binary_round_pos prec emax prec_pos emin_nonpos p) as (Hs & Hv).
  destruct (binary_round prec emax false p 0) as [s|s| |s m e] eqn:Eb;
    cbn [bind]; try discriminate.
  - destruct s; contradiction.
  - contradiction.
  - intros Hd.
    assert (Hd' : d = SF2Prim (S754_finite s m e)) by congruence.
    rewrite Hd'. unfold positive_finite.
    rewrite Prim2SF_SF2Prim by exact Hv.
    destruct s; [contradiction | reflexivity].
Qed.

(** ** The EMI grows with the principal *)

Lemma emi_monotone_in_float_principal (p p' r : num float) (n : Z) :
  fleb (to_float p) (to_float p') = true ->
  (is_zero r = true ->
   forall d, n <> 0 -> of_long n = Ok d -> positive_finite d = true ->
     calculate_emi p r n = Ok (fdiv (to_float p) d)
     /\ calculate_emi p' r n = Ok (fdiv (to_float p') d)
     /\ fleb (fdiv (to_float p) d) (fdiv (to_float p') d) = true)
  /\ (is_zero r = false ->
      let monthly_rate := fdiv (fdiv (to_float r) (of_int 12)) (of_int 100) in
      forall pw,
        positive_finite monthly_rate = true ->
        fpow (fadd (of_int 1) monthly_rate) n = Ok pw ->
        positive_finite pw = true ->
        positive_finite (fsub pw (of_int 1)) = true ->
        exists e e',
          calculate_emi p r n = Ok e /\ calculate_emi p' r n = Ok e'
          /\ fleb e e' = true).
Proof.
  intros Hp. split.
  - intros Hr d Hn Hd Hpos. unfold calculate_emi. rewrite Hr.
    destruct (Z.eqb_spec n 0) as [E|_]; [contradiction|].
    rewrite Hd. cbn [bind].
    split; [reflexivity|split; [reflexivity|]].
    apply fdiv_mono; assumption.
  - intros Hr monthly_rate pw Hmr Hpw Hpwpos Hden.
    unfold calculate_emi. rewrite Hr. fold monthly_rate. rewrite Hpw. cbn [bind].
    unfold float_div. rewrite (positive_finite_nonzero _ Hden). cbn [bind].
    eexists. eexists. split; [reflexivity|split; [reflexivity|]].
    apply round2_mono, fdiv_mono; [exact Hden|].
    apply fmul_mono; [exact Hpwpos|].
    apply fmul_mono; [exact Hmr|exact Hp].
Qed.

(** C7, as the code has it.  On the floats the code computes with,
    [calculate_emi] grows weakly with the principal, the rate and the tenure
    held fixed.  At
    rate zero and a tenure [n > 0] that converts to a float, both calls return
    and the instalment of the larger principal is at least that of the
    smaller.  At another rate, when the monthly rate [rate / 12 / 100] is a
    positive finite float, the power [(1 + monthly_rate) ** n] is a positive
    finite float and so is that power less one, both calls return and the
    instalment of the larger principal is at least that of the smaller.  The
    inequality is not strict, and in the rate and in the tenure the results
    are not ordered. *)
Theorem emi_monotone_in_principal (h h' : Z) (r : num float) (n : Z) :
  h <= h' ->
  (is_zero r = true -> 0 < n ->
   forall d, of_long n = Ok d ->
     exists e e',
       calculate_emi (Dec h) r n = Ok e /\ calculate_emi (Dec h') r n = Ok e'
       /\ fleb e e' = true)
  /\ (is_zero r = false ->
      let monthly_rate := fdiv (fdiv (to_float r) (of_int 12)) (of_int 100) in
      forall power,
        positive_finite monthly_rate = true ->
        fpow (fadd (of_int 1) monthly_rate) n = Ok power ->
        positive_finite power = true ->
        positive_finite (fsub power (of_int 1)) = true ->
        exists e e',
          calculate_emi (Dec h) r n = Ok e /\ calculate_emi (Dec h') r n = Ok e'
          /\ fleb e e' = true).
Proof.
  intros Hh.
  pose proof (of_decimal_mono h h' Hh) as Hp.
  destruct (emi_monotone_in_float_principal (Dec h) (Dec h') r n Hp) as [Z NZ].
  split.
  - intros Hr Hn d Hd.
    destruct (Z Hr d ltac:(lia) Hd (of_long_positive n d Hn Hd)) as (E1 & E2 & L).
    eexists. eexists. split; [exact E1|split; [exact E2|exact L]].
  - exact NZ.
Qed.

Lemma emi_monotone_in_principal_witness :
  (1000000 <= 2000000
   /\ exists e e',
        calculate_emi (F:=float) (Dec 1000000) (Dec 0) 12 = Ok e
        /\ calculate_emi (F:=float) (Dec 2000000) (Dec 0) 12 = Ok e'
        /\ fleb e e' = true)
  /\ (1000000 <= 2000000
      /\ exists e e',
           calculate_emi (F:=float) (Dec 1000000) (Dec 1200) 12 = Ok e
           /\ calculate_emi (F:=float) (Dec 2000000) (Dec 1200) 12 = Ok e'
           /\ fleb e e' = true).
Proof.
  split; (split; [lia|]).
  - eapply (proj1 (emi_monotone_in_principal 1000000 2000000 (Dec 0) 12 ltac:(lia)));
      [reflexivity | lia | vm_compute; reflexivity].
  - pose proof (proj2 (emi_monotone_in_principal 1000000 2000000 (Dec 1200) 12
                         ltac:(lia)) eq_refl) as M.
    cbv zeta in M. eapply M.
    + vm_compute; reflexivity.
    + vm_compute; reflexivity.
    + vm_compute; reflexivity.
    + vm_compute; reflexivity.
Defined.

(** C7, counterexample on binary64.  Rate: 100.00 over 3 months costs
    33.333333333333336 at 0% (the quotient, unrounded) and 33.33 at 0.01%, so
    the higher rate costs less.  Principal: 0.01 and 0.02 at 12% over 12
    months both cost 0.0.  Tenure: 1.00 at 12% costs 0.02 over 100 months and
    over 101, and 200.00 at 999.99% costs 166.66 over 89 months and 166.67
    over 90, so the longer tenure costs more. *)
Lemma emi_monotonicity_fails :
  (calculate_emi (F:=float) (Dec 10000) (Dec 0) 3
   = Ok (fdiv (of_decimal 10000) (of_int 3))
   /\ calculate_emi (F:=float) (Dec 10000) (Dec 1) 3 = Ok (of_decimal 3333)
   /\ fltb (F:=float) (of_decimal 3333) (fdiv (of_decimal 10000) (of_int 3)) = true)
  /\ (calculate_emi (F:=float) (Dec 1) (Dec 1200) 12 = Ok (of_decimal 0)
      /\ calculate_emi (F:=float) (Dec 2) (Dec 1200) 12 = Ok (of_decimal 0)
      /\ fltb (F:=float) (of_decimal 0) (of_decimal 0) = false)
  /\ (calculate_emi (F:=float) (Dec 100) (Dec 1200) 100 = Ok (of_decimal 2)
      /\ calculate_emi (F:=float) (Dec 100) (Dec 1200) 101 = Ok (of_decimal 2)
      /\ fltb (F:=float) (of_decimal 2) (of_decimal 2) = false)
  /\ (calculate_emi (F:=float) (Dec 20000) (Dec 99999) 89 = Ok (of_decimal 16666)
      /\ calculate_emi (F:=float) (Dec 20000) (Dec 99999) 90 = Ok (of_decimal 16667)
      /\ fltb (F:=float) (of_decimal 16666) (of_decimal 16667) = true).
Proof. repeat split; vm_compute; reflexivity. Qed.

(** * More of the code *)

(** ** The credit score *)

Section ScoreFacts.

Context {F : Type} `{PyFloat F}.

Lemma loans_of_none (db : list Loan) (c : Customer) :
  (forall l, In l db -> customer l <> customer_id c) -> loans_of db c = [].
Proof.
  intros Hnone. unfold loans_of. induction db as [|l db IH]; [reflexivity|].
  cbn [filter].
  destruct (customer l =? customer_id c) eqn:E.
  - apply Z.eqb_eq in E. exfalso. apply (Hnone l); [left; reflexivity | exact E].
  - apply IH. intros l' Hl'. apply Hnone. right. exact Hl'.
Qed.

(** X1. A customer none of whose loans is in the table scores exactly 50,
    whatever loans other customers have. *)
Theorem no_history_scores_50 (db : list Loan) (today : date) (c : Customer) :
  (forall l, In l db -> customer l <> customer_id c) ->
  calculate_credit_score db today c = Ok 50.
Proof.
  intros Hnone. unfold calculate_credit_score.
  rewrite (loans_of_none db c Hnone). reflexivity.
Qed.

(** X2. A score, once returned, lies between 0 and 100. *)
Theorem score_in_range (db : list Loan) (today : date) (c : Customer) (s : Z) :
  calculate_credit_score db today c = Ok s -> 0 <= s <= 100.
Proof.
  unfold calculate_credit_score.
  destruct (loans_of db c) as [|l ls].
  - intros E. injection E as <-. lia.
  - cbv zeta. intros E. apply bind_Ok in E. destruct E as (t & _ & E).
    injection E as <-. lia.
Qed.

End ScoreFacts.

Lemma no_history_scores_50_witness :
  calculate_credit_score (F:=float) [Sample.ravi_loan] Sample.today Sample.asha = Ok 50.
Proof.
  apply no_history_scores_50.
  intros l [<- | []]. vm_compute. discriminate.
Defined.

Lemma score_in_range_witness :
  calculate_credit_score (F:=float) [Sample.asha_loan] Sample.today Sample.asha = Ok 12
  /\ 0 <= 12 <= 100.
Proof.
  assert (Hs : calculate_credit_score (F:=float) [Sample.asha_loan] Sample.today
                 Sample.asha = Ok 12) by (vm_compute; reflexivity).
  split; [exact Hs|]. exact (score_in_range _ _ _ _ Hs).
Defined.

(** ** The decision and the eligibility view *)

Section DecisionFacts.

Context {F : Type} `{PyFloat F}.

Lemma min_interest_some (score : Z) (floor : F) :
  min_interest score = Some floor -> 10 < score.
Proof.
  unfold min_interest.
  destruct (50 <? score) eqn:E50; [apply Z.ltb_lt in E50; lia|].
  destruct (30 <? score) eqn:E30; [apply Z.ltb_lt in E30; lia|].
  destruct (10 <? score) eqn:E10; [apply Z.ltb_lt in E10; lia|].
  discriminate.
Qed.

Lemma approved_within_limit (db : list Loan) (today : date) (score : Z)
    (c : Customer) (amount rate n : Z) (r : num F) (m : string) :
  get_approval_decision db today score c amount rate n = Ok (true, r, m) ->
  or_zero (Sum loan_amount (current today (loans_of db c))) + amount
  <= 100 * approved_limit c.
Proof.
  unfold get_approval_decision.
  destruct (100 * approved_limit c <? _) eqn:Elim; [discriminate|].
  intros _. apply Z.ltb_ge in Elim. exact Elim.
Qed.

(** X3. The decision approves only what passes every check: an approval
    carries the message [APPROVED], the current principal plus the requested
    amount is within the limit, the score is above 10, the rate is the
    corrected one, and the EMI at that rate plus the current installments is
    not above half the salary. *)
Theorem approval_is_sound (db : list Loan) (today : date) (score : Z) (c : Customer)
    (amount rate n : Z) (r : num F) (m : string) :
  get_approval_decision db today score c amount rate n = Ok (true, r, m) ->
  m = APPROVED
  /\ or_zero (Sum loan_amount (current today (loans_of db c))) + amount
     <= 100 * approved_limit c
  /\ 10 < score
  /\ exists floor emi,
       min_interest score = Some floor
       /\ r = Flt (py_max (of_decimal rate) floor)
       /\ calculate_emi (Dec amount) r n = Ok emi
       /\ fltb (fmul (of_int (monthly_salary c)) (of_decimal 50))
               (fadd emi (of_decimal
                            (or_zero (Sum monthly_repayment
                                        (current today (loans_of db c))))))
          = false.
Proof.
  unfold get_approval_decision.
  destruct (100 * approved_limit c <? _) eqn:Elim; [discriminate|].
  apply Z.ltb_ge in Elim.
  destruct (min_interest score) as [floor|] eqn:Efloor; [|discriminate].
  cbv zeta. intros E. apply bind_Ok in E. destruct E as (emi & Hemi & E).
  destruct (fltb _ _) eqn:Eafford; [discriminate|].
  injection E as <- <-.
  split; [reflexivity|]. split; [exact Elim|].
  split; [exact (min_interest_some _ _ Efloor)|].
  exists floor, emi. auto.
Qed.

(** X4. The decision raises only out of the EMI computation: the request is
    then within the limit, the score is above 10, and [calculate_emi] at the
    corrected rate raises the same exception. *)
Theorem decision_raises_with_emi (db : list Loan) (today : date) (score : Z)
    (c : Customer) (amount rate n : Z) (e : exn) :
  get_approval_decision db today score c amount rate n = Raise e ->
  or_zero (Sum loan_amount (current today (loans_of db c))) + amount
  <= 100 * approved_limit c
  /\ exists floor,
       min_interest score = Some floor
       /\ calculate_emi (Dec amount) (Flt (py_max (of_decimal rate) floor)) n
          = Raise e.
Proof.
  unfold get_approval_decision.
  destruct (100 * approved_limit c <? _) eqn:Elim; [discriminate|].
  apply Z.ltb_ge in Elim.
  destruct (min_interest score) as [floor|] eqn:Efloor; [|discriminate].
  cbv zeta. intros E. split; [exact Elim|]. exists floor. split; [reflexivity|].
  destruct (calculate_emi _ _ n) as [emi|e'].
  - cbn [bind] in E. destruct (fltb _ _); discriminate.
  - cbn [bind] in E. congruence.
Qed.

(** X5. The response data [check_eligibility] builds carries a message
    exactly when the request is not approved, and the message is one of the
    three rejection reasons; customer, tenure and requested rate are those of
    the request. *)
Theorem eligibility_message (response_is_valid : response_data -> bool)
    (customers : list Customer) (db : list Loan)
    (today : date) (rq : EligibilityRequest) (d : response_data) :
  check_eligibility response_is_valid customers db today rq = Ok (Eligibility d) ->
  (rs_approval d = true <-> rs_message d = None)
  /\ (forall m, rs_message d = Some m ->
        m = LIMIT_EXCEEDED \/ m = SCORE_TOO_LOW \/ m = EMI_TOO_HIGH)
  /\ rs_customer_id d = rq_customer_id rq
  /\ rs_tenure d = rq_tenure rq
  /\ rs_interest_rate d = of_decimal (rq_interest_rate rq).
Proof.
  unfold check_eligibility.
  destruct (negb (is_valid rq)); [discriminate|].
  destruct (find _ customers) as [c|]; [|discriminate].
  intros E.
  apply bind_Ok in E. destruct E as (score & Hscore & E).
  apply bind_Ok in E. destruct E as ([[a r] m] & Hdec & E).
  apply bind_Ok in E. destruct E as (emi & Hemi & E).
  cbv zeta in E. destruct (response_is_valid _); [|discriminate].
  injection E as <-. cbn.
  split; [destruct a; split; congruence|].
  split; [|auto].
  intros m' Hm'. destruct a; [discriminate|]. injection Hm' as <-.
  destruct (decision_returns _ _ _ _ _ _ _ _ _ _ Hdec)
    as [(_ & _ & [-> | ->]) | (floor & e & _ & _ & _ & [[_ ->] | [Ha _]])];
    auto; discriminate.
Qed.

Lemma find_none_iff (customers : list Customer) (id : Z) :
  find (fun c => customer_id c =? id) customers = None
  <-> forall c, In c customers -> customer_id c <> id.
Proof.
  split.
  - intros E c Hc Hid. apply (find_none _ _ E) in Hc. cbn in Hc.
    apply Z.eqb_neq in Hc. contradiction.
  - intros Hnone. induction customers as [|c cs IH]; [reflexivity|].
    cbn [find]. destruct (customer_id c =? id) eqn:E.
    + apply Z.eqb_eq in E. exfalso. apply (Hnone c); [left; reflexivity | exact E].
    + apply IH. intros c' Hc'. apply Hnone. right. exact Hc'.
Qed.

End DecisionFacts.

Lemma approval_is_sound_witness :
  get_approval_decision (F:=float) [] Sample.today 50 Sample.asha 20000000 800 24
  = Ok (true, Flt 12%float, APPROVED)
  /\ or_zero (Sum loan_amount (current Sample.today (loans_of [] Sample.asha))) + 20000000
     <= 100 * approved_limit Sample.asha.
Proof.
  assert (Hdec : get_approval_decision (F:=float) [] Sample.today 50 Sample.asha
                   20000000 800 24 = Ok (true, Flt 12%float, APPROVED))
    by (vm_compute; reflexivity).
  split; [exact Hdec|].
  exact (proj1 (proj2 (approval_is_sound _ _ _ _ _ _ _ _ _ Hdec))).
Defined.

Lemma decision_raises_with_emi_witness :
  get_approval_decision (F:=float) [] Sample.today 50 Sample.asha 20000000 800 0
  = Raise ZeroDivisionError
  /\ exists floor : float,
       min_interest 50 = Some floor
       /\ calculate_emi (Dec 20000000) (Flt (py_max (of_decimal 800) floor)) 0
          = Raise ZeroDivisionError.
Proof.
  assert (Hdec : get_approval_decision (F:=float) [] Sample.today 50 Sample.asha
                   20000000 800 0 = Raise ZeroDivisionError)
    by (vm_compute; reflexivity).
  split; [exact Hdec|].
  exact (proj2 (decision_raises_with_emi _ _ _ _ _ _ _ _ Hdec)).
Defined.

Lemma eligibility_message_witness :
  check_eligibility (F:=float) Sample.response_is_valid Sample.customers
    [Sample.asha_loan] Sample.today (Sample.request 20000000 800 24)
  = Ok (Eligibility
          {| rs_customer_id := 1; rs_approval := false;
             rs_interest_rate := 8%float;
             rs_corrected_interest_rate := Dec 800;
             rs_tenure := 24;
             rs_monthly_installment := of_decimal 904546;
             rs_message := Some LIMIT_EXCEEDED |})
  /\ (false = true <-> Some LIMIT_EXCEEDED = None).
Proof.
  assert (Hview : check_eligibility (F:=float) Sample.response_is_valid
                    Sample.customers [Sample.asha_loan]
                    Sample.today (Sample.request 20000000 800 24)
                  = Ok (Eligibility
                          {| rs_customer_id := 1; rs_approval := false;
                             rs_interest_rate := 8%float;
                             rs_corrected_interest_rate := Dec 800;
                             rs_tenure := 24;
                             rs_monthly_installment := of_decimal 904546;
                             rs_message := Some LIMIT_EXCEEDED |}))
    by (vm_compute; reflexivity).
  split; [exact Hview|].
  exact (proj1 (eligibility_message _ _ _ _ _ _ Hview)).
Defined.

(** ** The tier floor on binary64 *)

Lemma SFcompare_antisym (x y : spec_float) :
  SFcompare y x = option_map CompOpp (SFcompare x y).
Proof.
  destruct x as [s1|s1| |s1 m1 e1], y as [s2|s2| |s2 m2 e2]; cbn [SFcompare option_map];
    try reflexivity;
    try (destruct s1; reflexivity);
    try (destruct s2; reflexivity);
    try (destruct s1, s2; reflexivity).
  f_equal.
  pose proof (Pos.compare_antisym m1 m2) as A. unfold Pos.compare in A.
  rewrite (Z.compare_antisym e1 e2), A.
  destruct s1, s2; cbn [CompOpp]; try reflexivity;
    destruct (e1 ?= e2); cbn [CompOpp]; try reflexivity;
    destruct (Pos.compare_cont Eq m1 m2); reflexivity.
Qed.

Lemma not_ltb_leb (x y : float) :
  Prim2SF x <> S754_nan -> Prim2SF y <> S754_nan ->
  PrimFloat.ltb x y = false -> PrimFloat.leb y x = true.
Proof.
  intros Hx Hy. rewrite ltb_spec, leb_spec. unfold SFltb, SFleb.
  rewrite (SFcompare_antisym (Prim2SF x) (Prim2SF y)).
  destruct (SFcompare (Prim2SF x) (Prim2SF y)) as [[]|] eqn:E; cbn; try congruence.
  exfalso. destruct (Prim2SF x), (Prim2SF y); cbn in E; congruence.
Qed.

(** X6. On binary64, whenever the decision gets past the score chain (an
    approval or the [EMI_TOO_HIGH] rejection), the rate it carries is at least
    the floor of the score's tier: no loan is offered below 10.0, 12.0 or
    16.0 percent for its tier. *)
Theorem tier_floor_is_enforced (db : list Loan) (today : date) (score : Z)
    (c : Customer) (amount rate n : Z) (a : bool) (r : num float) (m : string) :
  get_approval_decision db today score c amount rate n = Ok (a, r, m) ->
  m = APPROVED \/ m = EMI_TOO_HIGH ->
  exists floor : float,
    min_interest score = Some floor /\ fleb floor (to_float r) = true.
Proof.
  intros Hdec Hm.
  destruct (decision_returns _ _ _ _ _ _ _ _ _ _ Hdec)
    as [(_ & _ & Hm') | (floor & emi & Hfloor & -> & _)].
  - exfalso. destruct messages_differ as (D1 & D2 & D3 & D4).
    destruct Hm as [-> | ->], Hm' as [E | E]; congruence.
  - exists floor. split; [exact Hfloor|]. cbn [to_float].
    assert (Hfl : Prim2SF floor <> S754_nan).
    { revert Hfloor. unfold min_interest.
      destruct (50 <? score); [intros E; injection E as <-; apply of_decimal_not_nan|].
      destruct (30 <? score); [intros E; injection E as <-; apply of_decimal_not_nan|].
      destruct (10 <? score); [intros E; injection E as <-; apply of_decimal_not_nan|].
      discriminate. }
    unfold py_max. destruct (fltb (of_decimal rate) floor) eqn:E.
    + apply leb_refl. exact Hfl.
    + apply not_ltb_leb; [apply of_decimal_not_nan | exact Hfl | exact E].
Qed.

Lemma tier_floor_is_enforced_witness :
  get_approval_decision (F:=float) [] Sample.today 50 Sample.asha 20000000 800 24
  = Ok (true, Flt 12%float, APPROVED)
  /\ exists floor : float,
       min_interest 50 = Some floor /\ fleb floor (to_float (Flt 12%float)) = true.
Proof.
  assert (Hdec : get_approval_decision (F:=float) [] Sample.today 50 Sample.asha
                   20000000 800 24 = Ok (true, Flt 12%float, APPROVED))
    by (vm_compute; reflexivity).
  split; [exact Hdec|].
  exact (tier_floor_is_enforced _ _ _ _ _ _ _ _ _ _ Hdec (or_introl eq_refl)).
Defined.

(** ** Registration and the loan listing *)

(** X7. Among the registrations the database accepts, the approved limit
    never falls when the income rises, and it is not negative for an income
    that is not negative. *)
Theorem approved_limit_grows_with_income (integer_column : Z -> bool)
    (out_of_range : exn) (customers customers' : list Customer)
    (v v' : registration) (cu cu' : Customer) :
  create integer_column out_of_range customers v = Ok cu ->
  create integer_column out_of_range customers' v' = Ok cu' ->
  rg_monthly_income v <= rg_monthly_income v' ->
  approved_limit cu <= approved_limit cu'
  /\ (0 <= rg_monthly_income v -> 0 <= approved_limit cu).
Proof.
  unfold create. intros E E' Hle.
  match type of E with (if ?b then _ else _) = _ => destruct b; [|discriminate] end.
  match type of E' with (if ?b then _ else _) = _ => destruct b; [|discriminate] end.
  assert (Hcu : approved_limit cu = round_to_lakh (36 * rg_monthly_income v))
    by (injection E as <-; reflexivity).
  assert (Hcu' : approved_limit cu' = round_to_lakh (36 * rg_monthly_income v'))
    by (injection E' as <-; reflexivity).
  rewrite Hcu, Hcu'. unfold round_to_lakh. split.
  - apply Z.mul_le_mono_nonneg_r; [lia|].
    apply round_half_even_mono; lia.
  - intros Hpos.
    assert (H0 : round_half_even 0 100000 <= round_half_even (36 * rg_monthly_income v) 100000)
      by (apply round_half_even_mono; lia).
    change (round_half_even 0 100000) with 0 in H0. lia.
Qed.

Lemma or_zero_Sum (f : Loan -> Z) (qs : list Loan) :
  or_zero (Sum f qs) = fold_right (fun l acc => f l + acc) 0 qs.
Proof. destruct qs; reflexivity. Qed.

(** X8. [view_customer_loans] answers 404 exactly when no customer has the
    id; otherwise it lists the customer's loans that are current, those and
    no others (never another customer's loan, never an ended one), each with
    [repayments_left >= 0]. *)
Theorem customer_loans_listing (customers : list Customer) (db : list Loan)
    (today : date) (id : Z) :
  (view_customer_loans customers db today id = None
   <-> forall c, In c customers -> customer_id c <> id)
  /\ forall items,
       view_customer_loans customers db today id = Some items ->
       (forall it, In it items <->
          exists l, In l db /\ customer l = id
                    /\ is_current_loan today l = true
                    /\ it = CustomerLoanSerializer l)
       /\ (forall it, In it items -> 0 <= cl_repayments_left it)
       /\ (List.length items <= List.length db)%nat.
Proof.
  unfold view_customer_loans. split.
  - rewrite <- find_none_iff.
    destruct (find _ customers); split; congruence.
  - intros items.
    destruct (find _ customers) as [c|] eqn:Ec; [|discriminate].
    apply find_some in Ec. destruct Ec as [_ Ec]. apply Z.eqb_eq in Ec.
    intros E. injection E as <-.
    split; [|split].
    + intros it. rewrite in_map_iff. unfold current, loans_of. split.
      * intros (l & <- & Hl). apply filter_In in Hl. destruct Hl as [Hl Hcur].
        apply filter_In in Hl. destruct Hl as [Hl Hc]. apply Z.eqb_eq in Hc.
        exists l. repeat split; try assumption. congruence.
      * intros (l & Hl & Hc & Hcur & ->). exists l. split; [reflexivity|].
        apply filter_In. split; [|exact Hcur].
        apply filter_In. split; [exact Hl|]. apply Z.eqb_eq. congruence.
    + intros it Hit. apply in_map_iff in Hit. destruct Hit as (l & <- & _).
      cbn. unfold repayments_left. lia.
    + rewrite List.length_map. unfold current, loans_of.
      etransitivity; apply filter_length_le.
Qed.

Lemma approved_limit_grows_with_income_witness :
  exists cu cu',
    create Sample.sqlite_integer OverflowError [] (Sample.registration_of 50000) = Ok cu
    /\ create Sample.sqlite_integer OverflowError [] (Sample.registration_of 60000) = Ok cu'
    /\ approved_limit cu <= approved_limit cu'.
Proof.
  eexists. eexists. split; [reflexivity|]. split; [reflexivity|].
  refine (proj1 (approved_limit_grows_with_income Sample.sqlite_integer OverflowError
                   [] [] (Sample.registration_of 50000) (Sample.registration_of 60000)
                   _ _ eq_refl eq_refl _)).
  vm_compute. discriminate.
Defined.

Lemma customer_loans_listing_witness :
  In (CustomerLoanSerializer Sample.ravi_loan) [CustomerLoanSerializer Sample.asha_loan] <->
  exists l, In l [Sample.asha_loan; Sample.ravi_loan] /\ customer l = 1
            /\ is_current_loan Sample.today l = true
            /\ CustomerLoanSerializer Sample.ravi_loan = CustomerLoanSerializer l.
Proof.
  apply (proj2 (customer_loans_listing Sample.customers
                  [Sample.asha_loan; Sample.ravi_loan] Sample.today 1)
           [CustomerLoanSerializer Sample.asha_loan]).
  reflexivity.
Defined.

(** ** [create_loan] *)

Section CreationFacts.

Context {F : Type} `{PyFloat F}.

Variable to_decimal : Z -> F -> result Z.

Variable installment_is_valid : F -> bool.

Variables (customers : list Customer) (db : list Loan) (today : date) (new_id : Z).

(** Every way [create_loan] returns. *)
Lemma create_loan_returns (rq : EligibilityRequest) (resp : creation_response)
    (db' : list Loan) :
  create_loan to_decimal installment_is_valid customers db today new_id rq
  = Ok (resp, db') ->
  (resp = Creation_400 /\ db' = db /\ is_valid rq = false)
  \/ (resp = Creation_404 /\ db' = db /\ is_valid rq = true
      /\ find (fun c => customer_id c =? rq_customer_id rq) customers = None)
  \/ (exists c score r m,
        is_valid rq = true
        /\ find (fun c => customer_id c =? rq_customer_id rq) customers = Some c
        /\ calculate_credit_score db today c = Ok score
        /\ get_approval_decision db today score c
             (rq_loan_amount rq) (rq_interest_rate rq) (rq_tenure rq)
           = Ok (false, r, m)
        /\ resp = Creation_200
                    {| cr_loan_id := None; cr_customer_id := rq_customer_id rq;
                       cr_loan_approved := false; cr_message := m;
                       cr_monthly_installment := None |}
        /\ db' = db)
  \/ (exists c score r m emi loan,
        is_valid rq = true
        /\ find (fun c => customer_id c =? rq_customer_id rq) customers = Some c
        /\ calculate_credit_score db today c = Ok score
        /\ get_approval_decision db today score c
             (rq_loan_amount rq) (rq_interest_rate rq) (rq_tenure rq)
           = Ok (true, r, m)
        /\ calculate_emi (Dec (rq_loan_amount rq)) r (rq_tenure rq) = Ok emi
        /\ resp = (if installment_is_valid emi
                   then Creation_200
                          {| cr_loan_id := Some new_id;
                             cr_customer_id := rq_customer_id rq;
                             cr_loan_approved := true; cr_message := LOAN_APPROVED;
                             cr_monthly_installment := Some emi |}
                   else Creation_400)
        /\ db' = loan :: db
        /\ loan_id loan = new_id
        /\ customer loan = customer_id c
        /\ loan_amount loan = rq_loan_amount rq
        /\ tenure loan = rq_tenure rq
        /\ emis_paid_on_time loan = 0
        /\ start_date loan = today
        /\ PyDate.plus_days today (rq_tenure rq * 30) = Ok (end_date loan)
        /\ to_decimal 5 (to_float r) = Ok (interest_rate loan)
        /\ to_decimal 12 emi = Ok (monthly_repayment loan)).
Proof.
  unfold create_loan.
  destruct (is_valid rq); cbn [negb].
  2:{ intros E. injection E as <- <-. left. auto. }
  destruct (find _ customers) as [c|] eqn:Ec.
  2:{ intros E. injection E as <- <-. right; left. auto. }
  intros E.
  apply bind_Ok in E. destruct E as (score & Hscore & E).
  apply bind_Ok in E. destruct E as ([[a r] m] & Hdec & E).
  destruct a.
  - apply bind_Ok in E. destruct E as (emi & Hemi & E).
    apply bind_Ok in E. destruct E as (e' & Hend & E).
    apply bind_Ok in E. destruct E as (ir & Hir & E).
    apply bind_Ok in E. destruct E as (mr & Hmr & E).
    cbv zeta in E. injection E as <- <-.
    right; right; right.
    exists c, score, r, m, emi. eexists.
    repeat (split; [first [reflexivity | eassumption]|]).
    cbn. eassumption.
  - injection E as <- <-. right; right; left.
    exists c, score, r, m. auto 10.
Qed.


(** X10. [create_loan] and [check_eligibility] decide alike on the same
    tables: a creation is answered as approved only if the eligibility check
    approves, with the same installment; and a request the eligibility check
    rejects is rejected by [create_loan] with the same message and no new
    row. *)
Theorem creation_agrees_with_eligibility (rq : EligibilityRequest) :
  (forall d db',
     create_loan to_decimal installment_is_valid customers db today new_id rq
     = Ok (Creation_200 d, db') ->
     cr_loan_approved d = true ->
     forall response_is_valid, exists e,
       check_eligibility response_is_valid customers db today rq
       = Ok (if response_is_valid e then Eligibility e else HTTP_400_BAD_REQUEST)
       /\ rs_approval e = true
       /\ cr_monthly_installment d = Some (rs_monthly_installment e))
  /\ (forall response_is_valid e,
        check_eligibility response_is_valid customers db today rq
        = Ok (Eligibility e) ->
        rs_approval e = false ->
        exists m,
          rs_message e = Some m
          /\ create_loan to_decimal installment_is_valid customers db today new_id rq
             = Ok (Creation_200
                     {| cr_loan_id := None; cr_customer_id := rq_customer_id rq;
                        cr_loan_approved := false; cr_message := m;
                        cr_monthly_installment := None |}, db)).
Proof.
  split.
  - intros d db' E Happ v.
    destruct (create_loan_returns rq _ db' E)
      as [(Hr & _) | [(Hr & _) | [(c & score & r & m & _ & _ & _ & _ & Hr & _)
          | (c & score & r & m & emi & loan & Hv & Hc & Hs & Hdec & Hemi & Hr & _)]]];
      try discriminate.
    + injection Hr as ->. cbn in Happ. discriminate.
    + destruct (installment_is_valid emi); [|discriminate].
      injection Hr as ->. unfold check_eligibility.
      rewrite Hv, Hc, Hs. cbn [negb bind]. rewrite Hdec. cbn [bind]. rewrite Hemi.
      cbn [bind]. cbv zeta.
      match goal with
      | |- exists e, (if v ?d then _ else _) = _ /\ _ => exists d
      end.
      split; [destruct (v _); reflexivity|]. cbn. auto.
  - intros v e E Hrej. unfold check_eligibility in E. unfold create_loan.
    destruct (negb (is_valid rq)); [discriminate|].
    destruct (find _ customers) as [c|]; [|discriminate].
    apply bind_Ok in E. destruct E as (score & Hscore & E).
    apply bind_Ok in E. destruct E as ([[a r] m] & Hdec & E).
    apply bind_Ok in E. destruct E as (emi & Hemi & E).
    cbv zeta in E. destruct (v _); [|discriminate].
    injection E as <-. cbn in Hrej. subst a. cbn.
    rewrite Hscore. cbn [bind]. rewrite Hdec. cbn [bind].
    exists m. split; reflexivity.
Qed.

Lemma loans_of_cons (l : Loan) (c : Customer) :
  loans_of (l :: db) c
  = if customer l =? customer_id c then l :: loans_of db c else loans_of db c.
Proof. reflexivity. Qed.

(** X11. [create_loan] keeps the customer's current principal within the
    approved limit: if it was within the limit before the call it is after,
    whatever the answer; and the loans of the other customers are untouched. *)
Theorem creation_keeps_within_limit (rq : EligibilityRequest)
    (resp : creation_response) (db' : list Loan) (c : Customer) :
  find (fun c => customer_id c =? rq_customer_id rq) customers = Some c ->
  create_loan to_decimal installment_is_valid customers db today new_id rq
  = Ok (resp, db') ->
  or_zero (Sum loan_amount (current today (loans_of db c))) <= 100 * approved_limit c ->
  or_zero (Sum loan_amount (current today (loans_of db' c))) <= 100 * approved_limit c
  /\ forall c2, customer_id c2 <> customer_id c -> loans_of db' c2 = loans_of db c2.
Proof.
  intros Hc E Hbefore.
  destruct (create_loan_returns rq resp db' E)
    as [(_ & -> & _) | [(_ & -> & _) | [(c' & score & r & m & _ & _ & _ & _ & _ & ->)
        | (c' & score & r & m & emi & loan & _ & Hc' & _ & Hdec & _ & _ & -> & Hloan)]]];
    try (split; [exact Hbefore | reflexivity]).
  rewrite Hc in Hc'. injection Hc' as <-.
  destruct Hloan as (_ & Hcust & Hamt & _).
  pose proof (approved_within_limit _ _ _ _ _ _ _ _ _ Hdec) as Hlim.
  split.
  - rewrite loans_of_cons, Hcust, Z.eqb_refl. unfold current at 1. cbn [filter].
    destruct (date_leb today (end_date loan)).
    + fold (current today (loans_of db c)).
      rewrite or_zero_Sum. cbn [fold_right]. rewrite <- or_zero_Sum, Hamt. lia.
    + exact Hbefore.
  - intros c2 Hc2. rewrite loans_of_cons, Hcust.
    destruct (customer_id c =? customer_id c2) eqn:E2; [|reflexivity].
    apply Z.eqb_eq in E2. congruence.
Qed.

(** X12. A loan that [create_loan] reports under an id is what [view_loan]
    shows for that id on the new table: the requesting customer's profile, the
    requested amount and tenure, starting today; while it is current it is in
    the customer's listing; and [view_loan] answers for the ids of the loans
    that were there as it did before. *)
Theorem created_loan_can_be_viewed (rq : EligibilityRequest) (d : creation_data)
    (db' : list Loan) (k : Z) :
  ~ In new_id (map loan_id db) ->
  create_loan to_decimal installment_is_valid customers db today new_id rq
  = Ok (Creation_200 d, db') ->
  cr_loan_id d = Some k ->
  (exists loan c,
     view_loan customers db' k = Loan_200 (LoanDetailSerializer loan c)
     /\ customer_id c = rq_customer_id rq
     /\ loan_id loan = k
     /\ loan_amount loan = rq_loan_amount rq
     /\ tenure loan = rq_tenure rq
     /\ start_date loan = today
     /\ (is_current_loan today loan = true ->
         exists items,
           view_customer_loans customers db' today (rq_customer_id rq) = Some items
           /\ In (CustomerLoanSerializer loan) items))
  /\ forall l, In l db ->
       view_loan customers db' (loan_id l) = view_loan customers db (loan_id l).
Proof.
  intros Hfresh E Hk.
  destruct (create_loan_returns rq _ db' E)
    as [(Hr & _) | [(Hr & _) | [(c & score & r & m & _ & _ & _ & _ & Hr & _)
        | (c & score & r & m & emi & loan & _ & Hc & _ & _ & _ & Hr & -> & Hloan)]]];
    try discriminate.
  - injection Hr as ->. cbn in Hk. discriminate.
  - destruct (installment_is_valid emi); [|discriminate].
    injection Hr as ->. cbn in Hk. injection Hk as <-.
    destruct Hloan as (Hid & Hcust & Hamt & Hten & _ & Hstart & _).
    pose proof (find_some _ _ Hc) as [_ Hcid]. apply Z.eqb_eq in Hcid.
    split.
    + exists loan, c.
      split.
      { unfold view_loan. cbn [find]. rewrite Hid, Z.eqb_refl.
        rewrite Hcust, Hcid, Hc. reflexivity. }
      repeat split; try assumption.
      intros Hcur. unfold view_customer_loans. rewrite Hc.
      eexists. split; [reflexivity|].
      apply in_map. unfold current. apply filter_In. split; [|exact Hcur].
      unfold loans_of. apply filter_In. split; [left; reflexivity|].
      apply Z.eqb_eq. exact Hcust.
    + intros l Hl. unfold view_loan. cbn [find]. rewrite Hid.
      destruct (new_id =? loan_id l) eqn:Eid; [|reflexivity].
      apply Z.eqb_eq in Eid. exfalso. apply Hfresh. rewrite Eid.
      apply in_map. exact Hl.
Qed.

End CreationFacts.

Lemma sample_creation :
  create_loan (F:=float) Sample.to_decimal Sample.installment_is_valid
    Sample.customers [Sample.ravi_loan] Sample.today 10
    (Sample.request 20000000 800 24)
  = Ok (Creation_200 Sample.approval_answer, [Sample.new_loan; Sample.ravi_loan]).
Proof. vm_compute. reflexivity. Qed.


Lemma creation_agrees_with_eligibility_witness :
  exists e,
    check_eligibility (F:=float) Sample.response_is_valid Sample.customers
      [Sample.ravi_loan] Sample.today (Sample.request 20000000 800 24)
    = Ok (if Sample.response_is_valid e then Eligibility e else HTTP_400_BAD_REQUEST)
    /\ rs_approval e = true
    /\ cr_monthly_installment Sample.approval_answer = Some (rs_monthly_installment e).
Proof.
  exact (proj1 (creation_agrees_with_eligibility Sample.to_decimal
                  Sample.installment_is_valid Sample.customers
                  [Sample.ravi_loan] Sample.today 10 (Sample.request 20000000 800 24))
           _ _ sample_creation eq_refl Sample.response_is_valid).
Defined.

Lemma creation_keeps_within_limit_witness :
  or_zero (Sum loan_amount
             (current Sample.today (loans_of [Sample.new_loan; Sample.ravi_loan] Sample.asha)))
  <= 100 * approved_limit Sample.asha.
Proof.
  refine (proj1 (creation_keeps_within_limit Sample.to_decimal
                   Sample.installment_is_valid Sample.customers
                   [Sample.ravi_loan] Sample.today 10 (Sample.request 20000000 800 24)
                   _ _ Sample.asha _ sample_creation _)).
  - reflexivity.
  - vm_compute. discriminate.
Defined.

Lemma created_loan_can_be_viewed_witness :
  exists loan c,
    view_loan Sample.customers [Sample.new_loan; Sample.ravi_loan] 10
    = Loan_200 (LoanDetailSerializer loan c)
    /\ customer_id c = 1 /\ loan_id loan = 10.
Proof.
  assert (Hfresh : ~ In 10 (map loan_id [Sample.ravi_loan])).
  { intros [Hin | []]. vm_compute in Hin. discriminate. }
  destruct (proj1 (created_loan_can_be_viewed _ _ _ _ _ _ _ _ _ _ Hfresh
                     sample_creation eq_refl))
    as (loan & c & Hview & Hc & Hid & _).
  exists loan, c. auto.
Defined.

(** ** Ingestion *)

Section UpdateOrCreateFacts.

Context {A : Type} (key : A -> Z).

Lemma key_absent (k : Z) (table : list A) :
  existsb (fun r => key r =? k) table = false <-> ~ In k (map key table).
Proof.
  split.
  - intros E Hin. apply in_map_iff in Hin. destruct Hin as (r & Hk & Hr).
    assert (Ht : existsb (fun r => key r =? k) table = true)
      by (apply existsb_exists; exists r; split; [exact Hr | apply Z.eqb_eq; exact Hk]).
    congruence.
  - intros Hno. destruct (existsb _ table) eqn:E; [|reflexivity].
    apply existsb_exists in E. destruct E as (r & Hr & Hk). apply Z.eqb_eq in Hk.
    exfalso. apply Hno. rewrite <- Hk. apply in_map. exact Hr.
Qed.

(** An update keeps every key where it is; a creation puts the new key in front. *)
Lemma update_or_create_keys (row : A) (table : list A) :
  map key (fst (update_or_create key row table))
  = if snd (update_or_create key row table)
    then key row :: map key table
    else map key table.
Proof.
  unfold update_or_create.
  destruct (existsb _ table); cbn [fst snd]; [|reflexivity].
  rewrite map_map. apply map_ext. intros r.
  destruct (key r =? key row) eqn:E; [|reflexivity].
  apply Z.eqb_eq in E. congruence.
Qed.

Lemma update_or_create_created (row : A) (table : list A) :
  snd (update_or_create key row table) = true <-> ~ In (key row) (map key table).
Proof.
  rewrite <- key_absent. unfold update_or_create.
  destruct (existsb _ table); cbn [snd]; split; congruence.
Qed.

Lemma update_or_create_In (row x : A) (table : list A) :
  In x (fst (update_or_create key row table)) ->
  x = row \/ (In x table /\ key x <> key row).
Proof.
  unfold update_or_create.
  destruct (existsb _ table) eqn:E; cbn [fst].
  - intros Hx. apply in_map_iff in Hx. destruct Hx as (r & Hx & Hr).
    destruct (key r =? key row) eqn:E'; [left; congruence|].
    right. subst x. split; [exact Hr | apply Z.eqb_neq; exact E'].
  - intros [Hx | Hx]; [left; congruence|]. right. split; [exact Hx|].
    apply key_absent in E. intros Hk. apply E. rewrite <- Hk. apply in_map. exact Hx.
Qed.

Lemma update_or_create_has_row (row : A) (table : list A) :
  In row (fst (update_or_create key row table)).
Proof.
  unfold update_or_create.
  destruct (existsb _ table) eqn:E; cbn [fst]; [|left; reflexivity].
  apply existsb_exists in E. destruct E as (r & Hr & Hk).
  apply in_map_iff. exists r. rewrite Hk. auto.
Qed.

Lemma update_or_create_keeps_keys (row : A) (table : list A) (k : Z) :
  In k (map key table) -> In k (map key (fst (update_or_create key row table))).
Proof.
  rewrite update_or_create_keys.
  destruct (snd _); [right; assumption | trivial].
Qed.

Lemma update_or_create_NoDup (row : A) (table : list A) :
  NoDup (map key table) -> NoDup (map key (fst (update_or_create key row table))).
Proof.
  intros Hnd. rewrite update_or_create_keys.
  destruct (snd (update_or_create key row table)) eqn:E; [|exact Hnd].
  constructor; [|exact Hnd]. apply update_or_create_created. exact E.
Qed.

Lemma update_or_create_length (row : A) (table : list A) :
  Z.of_nat (List.length (fst (update_or_create key row table)))
  = Z.of_nat (List.length table)
    + (if snd (update_or_create key row table) then 1 else 0).
Proof.
  unfold update_or_create.
  destruct (existsb _ table); cbn [fst snd List.length].
  - rewrite List.length_map. lia.
  - lia.
Qed.

Lemma settle_key (rows : list A) (x : A) : key (settle key rows x) = key x.
Proof.
  revert x. induction rows as [|row rest IH]; intros x; cbn [settle]; [reflexivity|].
  rewrite IH. destruct (key x =? key row) eqn:E; [|reflexivity].
  apply Z.eqb_eq in E. congruence.
Qed.

Lemma settle_app (pre post : list A) (x : A) :
  settle key (pre ++ post) x = settle key post (settle key pre x).
Proof.
  revert x. induction pre as [|row rest IH]; intros x; cbn; [reflexivity | apply IH].
Qed.

Lemma apply_rows_snoc (pre : list A) (row : A) (table : list A) :
  apply_rows key (pre ++ [row]) table
  = fst (update_or_create key row (apply_rows key pre table)).
Proof. unfold apply_rows. rewrite fold_left_app. reflexivity. Qed.

(** After the rows are applied, every row's key is in the table ... *)
Lemma apply_rows_has_keys (rows : list A) (table : list A) (row : A) :
  In row rows -> In (key row) (map key (apply_rows key rows table)).
Proof.
  induction rows as [|r pre IH] using rev_ind; [contradiction|].
  rewrite apply_rows_snoc. intros Hin. apply in_app_or in Hin.
  destruct Hin as [Hin | [-> | []]].
  - apply update_or_create_keeps_keys, IH, Hin.
  - apply in_map, update_or_create_has_row.
Qed.

(** ... and no element of the table would be changed by applying them again. *)
Lemma apply_rows_settled (rows : list A) (table : list A) (x : A) :
  In x (apply_rows key rows table) -> settle key rows x = x.
Proof.
  revert x. induction rows as [|r pre IH] using rev_ind; intros x; [reflexivity|].
  rewrite apply_rows_snoc, settle_app. intros Hx.
  apply update_or_create_In in Hx. destruct Hx as [-> | [Hx Hk]].
  - cbn [settle]. rewrite settle_key, Z.eqb_refl. reflexivity.
  - rewrite (IH x Hx). cbn [settle].
    apply Z.eqb_neq in Hk. rewrite Hk. reflexivity.
Qed.

(** When every key is already there, applying the rows only rewrites elements. *)
Lemma apply_rows_present (rows : list A) (table : list A) :
  (forall row, In row rows -> In (key row) (map key table)) ->
  apply_rows key rows table = map (settle key rows) table
  /\ forall row pre post, rows = pre ++ row :: post ->
       snd (update_or_create key row (apply_rows key pre table)) = false.
Proof.
  revert table. induction rows as [|r rest IH]; intros table Hall.
  - split; [symmetry; apply map_id|]. intros row pre post E.
    destruct pre; discriminate.
  - assert (Hex : existsb (fun x => key x =? key r) table = true).
    { destruct (existsb _ table) eqn:E; [reflexivity|].
      apply key_absent in E. exfalso. apply E, Hall. left. reflexivity. }
    assert (Hstep : update_or_create key r table
                    = (map (fun x => if key x =? key r then r else x) table, false)).
    { unfold update_or_create. rewrite Hex. reflexivity. }
    destruct (IH (map (fun x => if key x =? key r then r else x) table)) as [IH1 IH2].
    { intros row Hrow.
      replace (map (fun x => if key x =? key r then r else x) table)
        with (fst (update_or_create key r table)) by (rewrite Hstep; reflexivity).
      apply update_or_create_keeps_keys, Hall. right. exact Hrow. }
    split.
    + unfold apply_rows in *. cbn [fold_left]. rewrite Hstep. cbn [fst].
      rewrite IH1, map_map. reflexivity.
    + intros row pre post E. destruct pre as [|r' pre'].
      * cbn in E. injection E as <- <-. cbn. rewrite Hstep. reflexivity.
      * cbn in E. injection E as <- E.
        unfold apply_rows. cbn [fold_left]. rewrite Hstep. cbn [fst].
        apply (IH2 row pre' post E).
Qed.

Lemma apply_rows_In (rows : list A) (table : list A) (x : A) :
  In x (apply_rows key rows table) ->
  In x rows \/ (In x table /\ forall row, In row rows -> key row <> key x).
Proof.
  revert x. induction rows as [|r pre IH] using rev_ind; intros x.
  - cbn. intros Hx. right. split; [exact Hx | contradiction].
  - rewrite apply_rows_snoc. intros Hx.
    apply update_or_create_In in Hx. destruct Hx as [-> | [Hx Hk]].
    + left. apply in_or_app. right. left. reflexivity.
    + destruct (IH x Hx) as [Hin | [Hin Hno]].
      * left. apply in_or_app. left. exact Hin.
      * right. split; [exact Hin|]. intros row Hrow.
        apply in_app_or in Hrow. destruct Hrow as [Hrow | [<- | []]].
        -- apply Hno, Hrow.
        -- congruence.
Qed.

Lemma apply_rows_NoDup (rows : list A) (table : list A) :
  NoDup (map key table) -> NoDup (map key (apply_rows key rows table)).
Proof.
  intros Hnd. induction rows as [|r pre IH] using rev_ind; [exact Hnd|].
  rewrite apply_rows_snoc. apply update_or_create_NoDup, IH.
Qed.

End UpdateOrCreateFacts.

Lemma ingest_customer_rows_spec (rows : list (result Customer)) :
  forall (table : list Customer) (c u : Z) (table' : list Customer) (c' u' : Z),
  ingest_customer_rows rows table c u = (table', Some (c', u')) ->
  exists rows',
    rows = map Ok rows'
    /\ table' = apply_rows customer_id rows' table
    /\ c' + u' = c + u + Z.of_nat (List.length rows')
    /\ c <= c' /\ u <= u'
    /\ Z.of_nat (List.length table') = Z.of_nat (List.length table) + (c' - c).
Proof.
  induction rows as [|[row|e] rest IH]; intros table c u table' c' u' E.
  - cbn in E. injection E as <- <- <-. exists []. cbn. repeat split; lia.
  - cbn [ingest_customer_rows] in E.
    pose proof (update_or_create_length customer_id row table) as Hlen.
    destruct (update_or_create customer_id row table) as [t1 b] eqn:Estep.
    cbn [fst snd] in Hlen.
    destruct b; apply IH in E; destruct E as (rows' & -> & -> & Hsum & Hc & Hu & Hl);
      exists (row :: rows'); cbn [map List.length apply_rows fold_left];
      rewrite Estep; cbn [fst]; fold (apply_rows customer_id rows' t1);
      repeat split; lia.
  - cbn in E. discriminate.
Qed.

Lemma ingest_customer_rows_present (rows' : list Customer) :
  forall (table : list Customer) (c u : Z),
  (forall row, In row rows' -> In (customer_id row) (map customer_id table)) ->
  ingest_customer_rows (map Ok rows') table c u
  = (map (settle customer_id rows') table, Some (c, u + Z.of_nat (List.length rows'))).
Proof.
  induction rows' as [|r rest IH]; intros table c u Hall.
  - cbn. rewrite map_id, Z.add_0_r. reflexivity.
  - assert (Hex : existsb (fun x => customer_id x =? customer_id r) table = true).
    { destruct (existsb _ table) eqn:E; [reflexivity|].
      apply key_absent in E. exfalso. apply E, Hall. left. reflexivity. }
    cbn [map ingest_customer_rows]. unfold update_or_create. rewrite Hex.
    rewrite IH.
    + rewrite map_map. cbn [settle List.length]. f_equal. f_equal. f_equal. lia.
    + intros row Hrow.
      pose proof (update_or_create_keeps_keys customer_id r table (customer_id row)
                    (Hall row (or_intror Hrow))) as Hk.
      unfold update_or_create in Hk. rewrite Hex in Hk. exact Hk.
Qed.

(** X13. A successful customer ingestion counts every row as created or
    updated, grows the table by the number created, leaves a customer for
    every row's id, keeps only spreadsheet rows and the old customers no row
    names, and keeps the ids distinct if they were. *)
Theorem customers_ingested (rows : list (result Customer)) (table table' : list Customer)
    (n : ingestion_counts) :
  ingest_customer_data rows table = (table', Ingest_success n) ->
  created n + updated n = total_processed n
  /\ total_processed n = Z.of_nat (List.length rows)
  /\ 0 <= created n /\ 0 <= updated n
  /\ Z.of_nat (List.length table') = Z.of_nat (List.length table) + created n
  /\ (forall row, In (Ok row) rows ->
        exists c, In c table' /\ customer_id c = customer_id row)
  /\ (forall c, In c table' ->
        In (Ok c) rows
        \/ (In c table /\ forall row, In (Ok row) rows ->
                            customer_id row <> customer_id c))
  /\ (NoDup (map customer_id table) -> NoDup (map customer_id table')).
Proof.
  unfold ingest_customer_data.
  destruct (ingest_customer_rows rows table 0 0) as [t [[c u]|]] eqn:E;
    [|discriminate].
  intros E'. injection E' as <- <-. cbn [created updated total_processed].
  apply ingest_customer_rows_spec in E.
  destruct E as (rows' & -> & -> & Hsum & Hc & Hu & Hlen).
  rewrite List.length_map.
  repeat split; try lia.
  - intros row Hrow. apply in_map_iff in Hrow. destruct Hrow as (r & Hr & Hin).
    injection Hr as ->.
    pose proof (apply_rows_has_keys customer_id rows' table row Hin) as Hk.
    apply in_map_iff in Hk. destruct Hk as (c0 & Hk & Hc0). eauto.
  - intros c0 Hc0. apply apply_rows_In in Hc0. destruct Hc0 as [Hin | [Hin Hno]].
    + left. apply in_map. exact Hin.
    + right. split; [exact Hin|]. intros row Hrow.
      apply in_map_iff in Hrow. destruct Hrow as (r & Hr & Hr').
      injection Hr as ->. apply Hno, Hr'.
  - apply apply_rows_NoDup.
Qed.

(** X14. Ingesting the same customer rows again changes nothing: the table
    is the one the first run left, every row counts as updated and none as
    created. *)
Theorem customer_ingestion_is_idempotent (rows : list (result Customer))
    (table table' : list Customer) (n : ingestion_counts) :
  ingest_customer_data rows table = (table', Ingest_success n) ->
  ingest_customer_data rows table'
  = (table', Ingest_success {| created := 0;
                               updated := total_processed n;
                               total_processed := total_processed n |}).
Proof.
  unfold ingest_customer_data.
  destruct (ingest_customer_rows rows table 0 0) as [t [[c u]|]] eqn:E;
    [|discriminate].
  intros E'. injection E' as <- <-. cbn [total_processed].
  apply ingest_customer_rows_spec in E.
  destruct E as (rows' & -> & -> & _).
  rewrite ingest_customer_rows_present
    by (intros row Hrow; apply apply_rows_has_keys; exact Hrow).
  rewrite List.length_map. cbn [Z.add].
  f_equal.
  rewrite <- (map_id (apply_rows customer_id rows' table)) at 2.
  apply map_ext_in. intros x Hx. apply (apply_rows_settled customer_id _ _ _ Hx).
Qed.

Lemma ingest_customer_rows_raise (pre post : list (result Customer)) (e : exn) :
  forall (table : list Customer) (c u : Z),
  ingest_customer_rows (pre ++ Raise e :: post) table c u
  = (fst (ingest_customer_rows pre table c u), None).
Proof.
  induction pre as [|[row|e'] rest IH]; intros table c u.
  - reflexivity.
  - cbn [app ingest_customer_rows].
    destruct (update_or_create customer_id row table) as [t b].
    destruct b; apply IH.
  - reflexivity.
Qed.

(** X15. A row that raises ends the customer ingestion with the error
    status; what the rows before it wrote stays in the table, and the rows
    after it are not read. *)
Theorem failing_row_stops_customer_ingestion (pre post : list (result Customer))
    (e : exn) (table : list Customer) :
  ingest_customer_data (pre ++ Raise e :: post) table
  = (fst (ingest_customer_data pre table), Ingest_error).
Proof.
  unfold ingest_customer_data. rewrite ingest_customer_rows_raise.
  destruct (ingest_customer_rows pre table 0 0) as [t r]. reflexivity.
Qed.

Lemma ingest_loan_rows_spec (customers : list Customer) (rows : list (result Loan)) :
  forall (table : list Loan) (c u : Z),
  let r := ingest_loan_rows customers rows table c u in
  (forall l, In l (fst r) ->
     In l table
     \/ (In (Ok l) rows
         /\ exists cu, In cu customers /\ customer_id cu = customer l))
  /\ (NoDup (map loan_id table) -> NoDup (map loan_id (fst r)))
  /\ forall c' u', snd r = Some (c', u') ->
       c <= c' /\ u <= u'
       /\ (c' - c) + (u' - u) <= Z.of_nat (List.length rows)
       /\ ((forall row, In (Ok row) rows ->
              exists cu, In cu customers /\ customer_id cu = customer row) ->
           (c' - c) + (u' - u) = Z.of_nat (List.length rows)).
Proof.
  induction rows as [|[row|e] rest IH]; intros table c u; cbv zeta.
  - cbn. split; [auto|]. split; [auto|].
    intros c' u' E. injection E as <- <-. repeat split; lia.
  - cbn [ingest_loan_rows].
    destruct (find (fun cu => customer_id cu =? customer row) customers) as [cu|] eqn:Ef.
    + apply find_some in Ef. destruct Ef as [Hcu Hid]. apply Z.eqb_eq in Hid.
      pose proof (update_or_create_In loan_id row) as HIn.
      pose proof (update_or_create_NoDup loan_id row table) as Hnd.
      destruct (update_or_create loan_id row table) as [t1 b] eqn:Estep.
      cbn [fst] in Hnd.
      assert (Hstep : forall c1 u1,
                let r := ingest_loan_rows customers rest t1 c1 u1 in
                (forall l, In l (fst r) ->
                   In l table
                   \/ (In (Ok l) (Ok row :: rest)
                       /\ exists cu, In cu customers /\ customer_id cu = customer l))
                /\ (NoDup (map loan_id table) -> NoDup (map loan_id (fst r)))).
      { intros c1 u1. cbv zeta.
        destruct (IH t1 c1 u1) as (H1 & H2 & _). split.
        - intros l Hl. destruct (H1 l Hl) as [Hl' | (Hl' & Hex)].
          + specialize (HIn l table). rewrite Estep in HIn. cbn [fst] in HIn.
            destruct (HIn Hl') as [-> | [Hin _]].
            * right. split; [left; reflexivity | eauto].
            * left. exact Hin.
          + right. split; [right; exact Hl' | exact Hex].
        - intros Hno. apply H2, Hnd, Hno. }
      destruct b.
      * destruct (Hstep (c + 1) u) as [H1 H2]. split; [exact H1|]. split; [exact H2|].
        intros c' u' E. destruct (IH t1 (c + 1) u) as (_ & _ & H3).
        destruct (H3 c' u' E) as (Hc & Hu & Hle & Hall).
        cbn [List.length]. repeat split; try lia.
        intros Hrows. assert (Hr : (c' - (c + 1)) + (u' - u) = Z.of_nat (List.length rest))
          by (apply Hall; intros r Hr; apply Hrows; right; exact Hr). lia.
      * destruct (Hstep c (u + 1)) as [H1 H2]. split; [exact H1|]. split; [exact H2|].
        intros c' u' E. destruct (IH t1 c (u + 1)) as (_ & _ & H3).
        destruct (H3 c' u' E) as (Hc & Hu & Hle & Hall).
        cbn [List.length]. repeat split; try lia.
        intros Hrows. assert (Hr : (c' - c) + (u' - (u + 1)) = Z.of_nat (List.length rest))
          by (apply Hall; intros r Hr; apply Hrows; right; exact Hr). lia.
    + destruct (IH table c u) as (H1 & H2 & H3). split; [|split; [exact H2|]].
      * intros l Hl. destruct (H1 l Hl) as [Hl' | (Hl' & Hex)]; [left; exact Hl'|].
        right. split; [right; exact Hl' | exact Hex].
      * intros c' u' E. destruct (H3 c' u' E) as (Hc & Hu & Hle & Hall).
        cbn [List.length]. repeat split; try lia.
        intros Hrows. exfalso.
        destruct (Hrows row (or_introl eq_refl)) as (cu & Hcu & Hid).
        apply (find_none _ _ Ef) in Hcu. cbn in Hcu. apply Z.eqb_neq in Hcu.
        contradiction.
  - cbn. split; [auto|]. split; [auto|]. discriminate.
Qed.

(** X16. Loan ingestion, whatever its status: every loan in the table
    afterwards was there before or is a row whose customer exists, so loans
    keep pointing at existing customers if they did, and loan ids stay
    distinct.  On success the rows created and updated are at most the rows
    read (rows of unknown customers are skipped and still counted in
    [total_processed]), and all of them when every row's customer exists. *)
Theorem loans_ingested_for_known_customers (customers : list Customer)
    (rows : list (result Loan)) (table table' : list Loan) (st : ingestion_status) :
  ingest_loan_data customers rows table = (table', st) ->
  (forall l, In l table' ->
     In l table
     \/ (In (Ok l) rows /\ exists c, In c customers /\ customer_id c = customer l))
  /\ ((forall l, In l table -> exists c, In c customers /\ customer_id c = customer l) ->
      forall l, In l table' -> exists c, In c customers /\ customer_id c = customer l)
  /\ (NoDup (map loan_id table) -> NoDup (map loan_id table'))
  /\ forall n, st = Ingest_success n ->
       0 <= created n /\ 0 <= updated n
       /\ created n + updated n <= total_processed n
       /\ total_processed n = Z.of_nat (List.length rows)
       /\ ((forall row, In (Ok row) rows ->
              exists c, In c customers /\ customer_id c = customer row) ->
           created n + updated n = total_processed n).
Proof.
  unfold ingest_loan_data.
  pose proof (ingest_loan_rows_spec customers rows table 0 0) as Hspec.
  cbv zeta in Hspec.
  destruct (ingest_loan_rows customers rows table 0 0) as [t r].
  cbn [fst snd] in Hspec. destruct Hspec as (H1 & H2 & H3).
  intros E. injection E as <- <-.
  split; [exact H1|]. split.
  { intros Hfk l Hl. destruct (H1 l Hl) as [Hl' | [_ Hex]]; [apply Hfk, Hl' | exact Hex]. }
  split; [exact H2|].
  intros n En. destruct r as [[c u]|]; [|discriminate].
  injection En as <-. cbn [created updated total_processed].
  destruct (H3 c u eq_refl) as (Hc & Hu & Hle & Hall).
  repeat split; try lia.
  intros Hrows. specialize (Hall Hrows). lia.
Qed.

Lemma sample_customer_ingestion :
  ingest_customer_data [Ok Sample.asha_row; Ok Sample.ravi] [Sample.asha]
  = ([Sample.ravi; Sample.asha_row],
     Ingest_success {| created := 1; updated := 1; total_processed := 2 |}).
Proof. reflexivity. Qed.

Lemma customers_ingested_witness :
  Z.of_nat (List.length [Sample.ravi; Sample.asha_row])
  = Z.of_nat (List.length [Sample.asha]) + 1.
Proof.
  exact (proj1 (proj2 (proj2 (proj2 (proj2
           (customers_ingested _ _ _ _ sample_customer_ingestion)))))).
Defined.

Lemma customer_ingestion_is_idempotent_witness :
  ingest_customer_data [Ok Sample.asha_row; Ok Sample.ravi] [Sample.ravi; Sample.asha_row]
  = ([Sample.ravi; Sample.asha_row],
     Ingest_success {| created := 0; updated := 2; total_processed := 2 |}).
Proof.
  exact (customer_ingestion_is_idempotent _ _ _ _ sample_customer_ingestion).
Defined.

Lemma sample_loan_ingestion :
  ingest_loan_data Sample.customers [Ok Sample.asha_loan; Ok Sample.orphan_loan]
    [Sample.ravi_loan]
  = ([Sample.asha_loan; Sample.ravi_loan],
     Ingest_success {| created := 1; updated := 0; total_processed := 2 |}).
Proof. reflexivity. Qed.

Lemma loans_ingested_for_known_customers_witness :
  In Sample.asha_loan [Sample.ravi_loan]
  \/ (In (Ok Sample.asha_loan) [Ok Sample.asha_loan; Ok Sample.orphan_loan]
      /\ exists c, In c Sample.customers /\ customer_id c = customer Sample.asha_loan).
Proof.
  apply (proj1 (loans_ingested_for_known_customers _ _ _ _ _ sample_loan_ingestion)).
  left. reflexivity.
Defined.
